(** * Channel packing of [utils/lib/rr_graph/channel.py]

    A shallow embedding of the [Channel] segment class and of the
    [ChannelGrid] track grid with its packing operation [add_channel],
    followed by the properties of the packing engine. *)

From Stdlib Require Import ZArith Lia.
From stdpp Require Import base numbers option list gmap strings pretty.

(** ** Exceptions and the two small monads *)

(** The exceptions the module can raise.  [LoopBound] is no Python
    exception: it marks the [while True] loop of [add_channel] leaving the
    iteration bound the embedding gives it; [search_total] shows that this
    never happens. *)
Inductive exn : Set :=
  | ChannelNotStraight
  | TypeError
  | AssertionError
  | KeyError
  | IndexError
  | LoopBound.

#[global] Instance exn_eq_dec : EqDecision exn.
Proof. solve_decision. Defined.

(** A computation that reads only: a value or a raised exception. *)
Definition res (A : Type) : Type := exn + A.

Definition ok {A} (a : A) : res A := inr a.
Definition throw {A} (e : exn) : res A := inl e.

Definition rbind {A B} (m : res A) (k : A -> res B) : res B :=
  match m with
  | inl e => inl e
  | inr a => k a
  end.

(** A method that mutates an object of type [S]: the outcome together with
    the object as the call leaves it.  An exception keeps the mutations made
    before it was raised, as in Python. *)
Definition M (S A : Type) : Type := S -> res A * S.

Definition ret {S A} (a : A) : M S A := fun s => (inr a, s).
Definition raise {S A} (e : exn) : M S A := fun s => (inl e, s).
Definition lift {S A} (r : res A) : M S A := fun s => (r, s).
Definition get {S} : M S S := fun s => (inr s, s).
Definition modify {S} (f : S -> S) : M S unit := fun s => (inr tt, f s).

Definition bind {S A B} (m : M S A) (k : A -> M S B) : M S B :=
  fun s =>
    match m s with
    | (inl e, s') => (inl e, s')
    | (inr a, s') => k a s'
    end.

Definition assert_ {S} (b : bool) : M S unit :=
  if b then ret tt else raise AssertionError.

Declare Scope res_scope.
Declare Scope meth_scope.
Delimit Scope res_scope with res.
Delimit Scope meth_scope with meth.

Notation "x <- m ;; k" := (rbind m (fun x => k))
  (at level 100, m at next level, right associativity) : res_scope.
Notation "x <- m ;; k" := (bind m (fun x => k))
  (at level 100, m at next level, right associativity) : meth_scope.
Notation "m ;;; k" := (bind m (fun _ => k))
  (at level 100, right associativity) : meth_scope.

(** ** Points and sizes *)

(** Modelled from the spec: [Pos] and [Size], the named tuples imported from
    the package's [__init__] (not among the sources): an integer pair with
    fields [x] and [y]. *)
Module Pos.
Abbreviation t := (Z * Z)%type (only parsing).
Definition x (p : t) : Z := p.1.
Definition y (p : t) : Z := p.2.
End Pos.

Module Size.
Abbreviation t := (Z * Z)%type (only parsing).
Definition x (p : t) : Z := p.1.
Definition y (p : t) : Z := p.2.
End Size.

(** ** The segment class [Channel] *)

Module Channel.

(** [Channel.Type]: [X] is CHANX (constant x, a column), [Y] is CHANY
    (constant y, a row). *)
Inductive Type_ : Set := X | Y.

(** [Channel.Direction]. *)
Inductive Direction : Set := INC | DEC.

#[global] Instance Type_eq_dec : EqDecision Type_.
Proof. solve_decision. Defined.

#[global] Instance Direction_eq_dec : EqDecision Direction.
Proof. solve_decision. Defined.

(** An instance: the three fields of the named tuple [_Channel], the
    attribute [id_override] set by [__new__], and the one derived attribute
    an instance can carry a value of its own for, [type] (written by
    [ChannelGrid.add_channel]). *)
Record t : Type := mk {
  start : Pos.t;
  end_ : Pos.t;
  idx : option Z;
  id_override : option string;
  type_attr : option Type_
}.

(** [Channel.__new__].  The arguments are points already, so the two
    coercions are the identity; [assert_type(idx, int)] holds of every
    [Z]. *)
Definition new (start end_ : Pos.t) (idx : option Z)
    (id_override : option string) : res t :=
  if bool_decide (Pos.x start ≠ Pos.x end_)
     && bool_decide (Pos.y start ≠ Pos.y end_)
  then throw ChannelNotStraight
  else ok (mk start end_ idx id_override None).

(** Modelled from the spec: the decorator [static_property], imported from
    the package's [__init__] (not among the sources).  By section 3 the
    attributes are derived, not stored: reading one runs the decorated
    method on the instance, unless the instance carries a value of its own
    for that attribute, which then is what the read gives.  The module
    assigns [type] only, so the other five attributes never have a value
    of their own. *)
Definition static_property {A} (own : option A) (factory : res A) : res A :=
  match own with
  | Some a => ok a
  | None => factory
  end.

Definition type (self : t) : res Type_ :=
  static_property (type_attr self)
    (if bool_decide (Pos.x (start self) = Pos.x (end_ self)) then ok X
     else if bool_decide (Pos.y (start self) = Pos.y (end_ self)) then ok Y
     else throw AssertionError).

Definition start0 (self : t) : res Z :=
  static_property None
    (ty <- type self ;;
     match ty with
     | Y => ok (Pos.x (start self))
     | X => ok (Pos.y (start self))
     end)%res.

Definition end0 (self : t) : res Z :=
  static_property None
    (ty <- type self ;;
     match ty with
     | Y => ok (Pos.x (end_ self))
     | X => ok (Pos.y (end_ self))
     end)%res.

Definition common (self : t) : res Z :=
  static_property None
    (ty <- type self ;;
     match ty with
     | Y =>
         if bool_decide (Pos.y (start self) = Pos.y (end_ self))
         then ok (Pos.y (start self)) else throw AssertionError
     | X =>
         if bool_decide (Pos.x (start self) = Pos.x (end_ self))
         then ok (Pos.x (start self)) else throw AssertionError
     end)%res.

Definition direction (self : t) : res Direction :=
  static_property None
    (e <- end0 self ;;
     s <- start0 self ;;
     if bool_decide (e < s)%Z then ok DEC else ok INC)%res.

Definition length (self : t) : res Z :=
  static_property None
    (e <- end0 self ;;
     s <- start0 self ;;
     ok (Z.abs (e - s)))%res.

(** [ch.type = v]: the assignment gives the instance its own value. *)
Definition set_type (self : t) (v : Type_) : t :=
  mk (start self) (end_ self) (idx self) (id_override self) (Some v).

(** [update_idx]: a method on [self] that builds a new instance through
    [__new__]. *)
Definition update_idx (idx : option Z) : M t t :=
  (self <- get ;;
   lift (new (start self) (end_ self) idx (id_override self)))%meth.

(** [Channel.Type.value]. *)
Definition Type_value (ty : Type_) : string :=
  match ty with
  | X => "CHANX"
  | Y => "CHANY"
  end.

(** [if self.id_override]: the label when it is true as a condition, which
    [None] and the empty string are not. *)
Definition label (self : t) : option string :=
  match id_override self with
  | Some s => if bool_decide (s = "") then None else Some s
  | None => None
  end.

(** [__repr__].  ["{}".format(i)] of an integer is its decimal numeral,
    [pretty i]. *)
Definition repr (self : t) : string :=
  match label self with
  | Some l =>
      let idx_str :=
        match idx self with
        | Some i => "," +:+ pretty i
        | None => ""
        end in
      "C(" +:+ l +:+ idx_str +:+ ")"
  | None =>
      let idx_str :=
        match idx self with
        | Some i => ", " +:+ pretty i
        | None => ""
        end in
      "C((" +:+ pretty (Pos.x (start self)) +:+ ","
        +:+ pretty (Pos.y (start self)) +:+ "), ("
        +:+ pretty (Pos.x (end_ self)) +:+ ","
        +:+ pretty (Pos.y (end_ self)) +:+ ")" +:+ idx_str +:+ ")"
  end.

(** [s[1:]]. *)
Definition tail_str (s : string) : string :=
  match s with
  | EmptyString => ""
  | String _ s' => s'
  end.

(** [__str__]: the unlabelled form reads [self.type]. *)
Definition str (self : t) : res string :=
  let idx_str :=
    match idx self with
    | Some i => " @" +:+ pretty i
    | None => ""
    end in
  match label self with
  | Some l => ok (l +:+ tail_str idx_str)
  | None =>
      (ty <- type self ;;
       ok (Type_value ty +:+ " " +:+ pretty (Pos.x (start self)) +:+ ","
             +:+ pretty (Pos.y (start self)) +:+ "->"
             +:+ pretty (Pos.x (end_ self)) +:+ ","
             +:+ pretty (Pos.y (end_ self)) +:+ idx_str))%res
  end.

End Channel.

(** ** Python lists: indexing and slicing *)

(** [l[i]] for an integer [i]: the position read or written, a negative
    index counting from the end, [IndexError] out of range. *)
Definition index {A} (l : list A) (i : Z) : res nat :=
  let n := Z.of_nat (length l) in
  if bool_decide (0 ≤ i < n)%Z then ok (Z.to_nat i)
  else if bool_decide (- n ≤ i < 0)%Z then ok (Z.to_nat (i + n))
  else throw IndexError.

(** A slice bound clipped to the list, as Python does for [l[i:j]]. *)
Definition slice_bound (n i : Z) : Z :=
  if bool_decide (i < 0)%Z then Z.max 0 (i + n) else Z.min i n.

Definition slice {A} (l : list A) (i j : Z) : list A :=
  let n := Z.of_nat (length l) in
  let a := slice_bound n i in
  let b := slice_bound n j in
  take (Z.to_nat (b - a)) (drop (Z.to_nat a) l).

(** [for a in l: acc.append(f(a))], stopping at the first exception. *)
Fixpoint collect {A B} (f : A -> res B) (l : list A) : res (list B) :=
  match l with
  | [] => ok []
  | a :: l' => (b <- f a ;; bs <- collect f l' ;; ok (b :: bs))%res
  end.

(** [for a in l: body(a)] for a body that returns nothing. *)
Fixpoint for_each {S A} (body : A -> M S unit) (l : list A) : M S unit :=
  match l with
  | [] => ret tt
  | a :: l' => (body a ;;; for_each body l')%meth
  end.

(** [l[i]] read: the element at the position [index] gives. *)
Definition item {A} (l : list A) (i : Z) : res A :=
  (k <- index l i ;;
   match l !! k with
   | Some a => ok a
   | None => throw IndexError
   end)%res.

(** [for a in l: acc = f(acc, a)], stopping at the first exception. *)
Fixpoint fold_res {A B} (f : B -> A -> res B) (l : list A) (b : B) : res B :=
  match l with
  | [] => ok b
  | a :: l' => (b' <- f b a ;; fold_res f l' b')%res
  end.

(** ** Python strings: length, repetition, slicing and aligned formats *)

(** [len(s)]. *)
Definition len (s : string) : Z := Z.of_nat (String.length s).

(** The line feed. *)
Definition nl : string := String (Ascii.ascii_of_nat 10) EmptyString.

(** [s * n]: empty when [n] is not positive. *)
Definition times (s : string) (n : Z) : string :=
  Nat.iter (Z.to_nat n) (String.append s) "".

(** [s[i:j]]. *)
Definition str_slice (s : string) (i j : Z) : string :=
  String.string_of_list_ascii (slice (String.list_ascii_of_string s) i j).

(** ["{:>w}".format(s)], ["{:<w}".format(s)] and ["{:^w}".format(s)]: the
    text padded with spaces to the width [w], on the left, on the right, or
    on both sides with the smaller half on the left; a text of that width
    or more is left as it is. *)
Definition rjust (w : Z) (s : string) : string := times " " (w - len s) +:+ s.

Definition ljust (w : Z) (s : string) : string := s +:+ times " " (w - len s).

Definition center (w : Z) (s : string) : string :=
  let pad := Z.max 0 (w - len s) in
  times " " (pad / 2) +:+ s +:+ times " " (pad - pad / 2).


(** ** The track grid [ChannelGrid] *)

Module ChannelGrid.

(** A dict from points to track lists, with the attributes [chan_type]
    and [size]. *)
Record t : Type := mk {
  chan_type : Channel.Type_;
  size : Size.t;
  cells : gmap Pos.t (list (option Channel.t))
}.

(** A reference to the list object of a cell.  [__init__] creates one list
    per key and nothing rebinds a key afterwards, so the key identifies
    the object: a mutation through a reference is an update of the dict
    entry it names. *)
Abbreviation ref := (Z * Z)%type (only parsing).

Definition x (self : t) : Z := Size.x (size self).
Definition y (self : t) : Z := Size.y (size self).

(** [__init__]: [range(0, n)] is [seqZ 0 n]. *)
Definition init (size : Size.t) (chan_type : Channel.Type_) : t :=
  mk chan_type size
    (foldl (fun m x =>
              foldl (fun m y => <[(x, y) := []]> m) m (seqZ 0 (Size.y size)))
           ∅ (seqZ 0 (Size.x size))).

(** [self[p]], giving the reference to the cell's list. *)
Definition getitem (self : t) (p : Pos.t) : res ref :=
  match cells self !! p with
  | Some _ => ok p
  | None => throw KeyError
  end.

Definition column (self : t) (x : Z) : res (list ref) :=
  collect (fun y => getitem self (x, y)) (seqZ 0 (y self)).

Definition row (self : t) (y : Z) : res (list ref) :=
  collect (fun x => getitem self (x, y)) (seqZ 0 (x self)).

(** The list a reference points to. *)
Definition deref (self : t) (p : ref) : list (option Channel.t) :=
  default [] (cells self !! p).

Definition update (p : ref)
    (f : list (option Channel.t) -> list (option Channel.t)) (self : t) : t :=
  mk (chan_type self) (size self) (alter f p (cells self)).

(** [while len(p) < n: p.append(None)] on a list. *)
Definition pad (n : nat) (p : list (option Channel.t)) :=
  p ++ replicate (n - length p) None.

Definition pad_cell (n : nat) (p : ref) : M t unit := modify (update p (pad n)).

(** [p[i]] *)
Definition cell_get (p : ref) (i : Z) : M t (option Channel.t) :=
  fun self =>
    ((k <- index (deref self p) i ;;
      match deref self p !! k with
      | Some v => ok v
      | None => throw IndexError
      end)%res, self).

(** [p[i] = v] *)
Definition cell_set (p : ref) (i : Z) (v : option Channel.t) : M t unit :=
  fun self =>
    match index (deref self p) i with
    | inr k => (inr tt, update p (fun l => <[k := v]> l) self)
    | inl e => (inl e, self)
    end.

(** Modelled from the spec: [assert_len_eq], imported from the package
    [asserts] (not among the sources): the consistency check of section 7
    that fails on a non-rectangular line, that is, when two lists of the
    line differ in length. *)
Definition assert_len_eq (l : list ref) : M t unit :=
  fun self =>
    match l with
    | [] => (inr tt, self)
    | p :: l' =>
        if forallb (fun q => length (deref self q) =? length (deref self p)) l'
        then (inr tt, self) else (inl AssertionError, self)
    end.

(** The [for p in l[s:e+1]] loop of the search with its [break]: [true]
    when the loop was left through [break], [false] when it ran to its
    [else]. *)
Fixpoint scan (ps : list ref) (max_idx : nat) : M t bool :=
  match ps with
  | [] => ret false
  | p :: ps' =>
      (pad_cell (max_idx + 1) p ;;;
       v <- cell_get p (Z.of_nat max_idx) ;;
       if bool_decide (v ≠ None) then ret true else scan ps' max_idx)%meth
  end.

(** The [while True] loop: [n] bounds the number of iterations. *)
Fixpoint search (n : nat) (ps : list ref) (max_idx : nat) : M t nat :=
  match n with
  | O => raise LoopBound
  | S n' =>
      (hit <- scan ps max_idx ;;
       if hit then search n' ps (max_idx + 1) else ret max_idx)%meth
  end.

(** The bound given to the loop: one more than the longest list scanned. *)
Definition search_bound (ps : list ref) (self : t) : nat :=
  S (foldr Nat.max 0 (map (fun p => length (deref self p)) ps)).

(** [add_channel].  The assignment [ch.type = self.chan_type] is on the
    caller's object; the segment with the attribute set is the [ch] of the
    rest of the call, and [update_idx] then builds the returned segment from
    its fields, without the attribute.  The index of the search is a
    counter from 0, a [nat]; it is an integer where the lists are indexed
    and where it becomes the index of the segment. *)
Definition add_channel (ch : Channel.t) : M t Channel.t :=
  (assert_ (bool_decide (Channel.idx ch = None)) ;;;
   self <- get ;;
   ty <- lift (Channel.type ch) ;;
   ch <- (if bool_decide (ty ≠ chan_type self) then
            n <- lift (Channel.length ch) ;;
            if bool_decide (n ≠ 0%Z) then raise TypeError
            else ret (Channel.set_type ch (chan_type self))
          else ret ch) ;;
   ty <- lift (Channel.type ch) ;;
   l <- lift (match ty with
              | Channel.X => c <- Channel.common ch ;; column self c
              | Channel.Y => c <- Channel.common ch ;; row self c
              end)%res ;;
   assert_len_eq l ;;;
   s <- lift (Channel.start0 ch) ;;
   e <- lift (Channel.end0 ch) ;;
   d <- lift (Channel.direction ch) ;;
   let s' := if bool_decide (d = Channel.DEC) then e else s in
   let e' := if bool_decide (d = Channel.DEC) then s else e in
   assert_ (bool_decide (e' >= s')%Z) ;;;
   assert_ (bool_decide (s' < Z.of_nat (length l))%Z) ;;;
   assert_ (bool_decide (e' < Z.of_nat (length l))%Z) ;;;
   self <- get ;;
   max_idx <- search (search_bound (slice l s' (e' + 1)) self)
                (slice l s' (e' + 1)) 0 ;;
   for_each (pad_cell (max_idx + 1)) l ;;;
   assert_len_eq l ;;;
   ch <- lift (Channel.update_idx (Some (Z.of_nat max_idx)) ch).1 ;;
   assert_ (bool_decide (Channel.idx ch = Some (Z.of_nat max_idx))) ;;;
   for_each (fun p =>
               match Channel.idx ch with
               | Some i => cell_set p i (Some ch)
               | None => raise TypeError
               end) (slice l s' (e' + 1)) ;;;
   ret ch)%meth.

(** Modelled from the spec: [assert_len_eq] again, as [pretty_print] calls
    it, on a list of lists rather than of references. *)
Definition assert_len_eq_lists {A} (l : list (list A)) : res unit :=
  match l with
  | [] => ok tt
  | p :: l' =>
      if forallb (fun q => length q =? length p) l'
      then ok tt else throw AssertionError
  end.

(** [get_str], local to [pretty_print]. *)
Definition get_str (ch : option Channel.t) : res string :=
  match ch with
  | None => ok ""
  | Some c =>
      match Channel.label c with
      | Some l => ok l
      | None => Channel.str c
      end
  end.

(** The first loop nest of [pretty_print]: the length of the longest
    label, 1 at least. *)
Definition longest (self : t) : res Z :=
  fold_res (fun s_maxlen row =>
    fold_res (fun s_maxlen col =>
      (p <- getitem self (col, row) ;;
       fold_res (fun s_maxlen ch =>
                   (s <- get_str ch ;; ok (Z.max s_maxlen (len s)))%res)
         (deref self p) s_maxlen)%res)
      (seqZ 0 (x self)) s_maxlen)
    (seqZ 0 (y self)) 1%Z.

(** The formats, each applied to a label: [beg_fmt], [end_fmt], [mid_fmt]
    and [non_fmt] for the width [s_maxlen] (after its [+= 3]).  The last
    two hold no replacement field, so the label is dropped. *)
Definition beg_fmt (T : Channel.Type_) (s_maxlen : Z) (s : string) : string :=
  match T with
  | Channel.Y => rjust (s_maxlen - 1) s +:+ ">"
  | Channel.X => center s_maxlen s
  end.

Definition end_fmt (T : Channel.Type_) (s_maxlen : Z) (s : string) : string :=
  match T with
  | Channel.Y => "->" +:+ ljust (s_maxlen - 2) s
  | Channel.X => center s_maxlen s
  end.

Definition mid_fmt (T : Channel.Type_) (s_maxlen : Z) (s : string) : string :=
  match T with
  | Channel.Y => times "-" s_maxlen
  | Channel.X => center s_maxlen "|"
  end.

Definition non_fmt (s_maxlen : Z) (s : string) : string := times " " s_maxlen.

(** The body of the loop over the tracks of the cell [(x, y)]: the text
    appended for [ch]. *)
Definition track_text (T : Channel.Type_) (s_maxlen : Z) (xy : Pos.t)
    (ch : option Channel.t) : res string :=
  match ch with
  | None => (s <- get_str ch ;; ok (non_fmt s_maxlen s))%res
  | Some c =>
      if bool_decide (Channel.start c = Channel.end_ c) then
        (s <- get_str ch ;;
         ok (str_slice (beg_fmt T s_maxlen s +:+ mid_fmt T s_maxlen s
                          +:+ end_fmt T s_maxlen s) 0 (s_maxlen - 1)
               +:+ " "))%res
      else
        let fmt :=
          if bool_decide (Channel.start c = xy) then beg_fmt T s_maxlen
          else if bool_decide (Channel.end_ c = xy) then end_fmt T s_maxlen
          else mid_fmt T s_maxlen in
        (s <- get_str ch ;; ok (fmt s))%res
  end.

(** The list [channels] of the cell [(x, y)]: the column number, then one
    text per track. *)
Definition cell_texts (self : t) (s_maxlen : Z) (xy : Pos.t)
    : res (list string) :=
  (p <- getitem self xy ;;
   texts <- collect (track_text (chan_type self) s_maxlen xy) (deref self p) ;;
   ok (("|" +:+ center (s_maxlen - 1) (pretty (Pos.x xy))) :: texts))%res.

(** The printing of one element of [rows]: line [i] joins the [i]-th text
    of every cell, the first line closed by a bar, and two line feeds
    follow the block. *)
Definition print_row (cols : list (list string)) : res string :=
  (_ <- assert_len_eq_lists cols ;;
   first <- item cols 0 ;;
   block <- fold_res (fun out i =>
              (line <- fold_res (fun out c =>
                                   (col <- item cols c ;;
                                    s <- item col i ;;
                                    ok (out +:+ s))%res)
                         (seqZ 0 (Z.of_nat (length cols))) out ;;
               ok (line +:+ (if bool_decide (i = 0)%Z then "|" else "")
                     +:+ nl))%res)
              (seqZ 0 (Z.of_nat (length first))) "" ;;
   ok (block +:+ nl +:+ nl))%res.

(** [pretty_print]: it reads the grid only. *)
Definition pretty_print (self : t) : res string :=
  (s_maxlen <- longest self ;;
   _ <- (if bool_decide (s_maxlen > 0)%Z then ok tt
         else throw AssertionError) ;;
   let s_maxlen := (s_maxlen + 3)%Z in
   rows <- collect (fun y =>
             collect (fun x => cell_texts self s_maxlen (x, y))
               (seqZ 0 (x self)))
           (seqZ 0 (y self)) ;;
   fold_res (fun out cols => (s <- print_row cols ;; ok (out +:+ s))%res)
     rows "")%res.

End ChannelGrid.

(** ** Notions the properties are stated with *)

(** The coordinate of a point along the lines of a grid of orientation
    [T], and the one across them (which names the line). *)
Definition along (T : Channel.Type_) (p : Pos.t) : Z :=
  match T with
  | Channel.Y => Pos.x p
  | Channel.X => Pos.y p
  end.

Definition across (T : Channel.Type_) (p : Pos.t) : Z :=
  match T with
  | Channel.Y => Pos.y p
  | Channel.X => Pos.x p
  end.

(** The inclusive range [[s, e]] of a segment in a line of orientation [T]. *)
Definition span_start (T : Channel.Type_) (c : Channel.t) : Z :=
  Z.min (along T (Channel.start c)) (along T (Channel.end_ c)).

Definition span_end (T : Channel.Type_) (c : Channel.t) : Z :=
  Z.max (along T (Channel.start c)) (along T (Channel.end_ c)).

(** The class invariant [__new__] establishes. *)
Definition straight (c : Channel.t) : Prop :=
  Pos.x (Channel.start c) = Pos.x (Channel.end_ c)
  ∨ Pos.y (Channel.start c) = Pos.y (Channel.end_ c).

(** The cells of the rectangle [[0,width) x [0,height)]. *)
Definition in_grid (sz : Size.t) (p : Pos.t) : Prop :=
  (0 ≤ Pos.x p < Size.x sz)%Z ∧ (0 ≤ Pos.y p < Size.y sz)%Z.

(** The cells a segment runs over: the points between its two ends. *)
Definition covers (c : Channel.t) (p : Pos.t) : Prop :=
  (Z.min (Pos.x (Channel.start c)) (Pos.x (Channel.end_ c)) ≤ Pos.x p
   ≤ Z.max (Pos.x (Channel.start c)) (Pos.x (Channel.end_ c)))%Z
  ∧ (Z.min (Pos.y (Channel.start c)) (Pos.y (Channel.end_ c)) ≤ Pos.y p
     ≤ Z.max (Pos.y (Channel.start c)) (Pos.y (Channel.end_ c)))%Z.

(** The precondition [0 <= s] of [place] (section 4.2). *)
Definition span_nonneg (T : Channel.Type_) (c : Channel.t) : Prop :=
  (0 ≤ span_start T c)%Z.

(** [track g p i = Some c]: segment [c] occupies index [i] in cell [p]. *)
Definition track (g : ChannelGrid.t) (p : Pos.t) (i : nat) : option Channel.t :=
  mjoin (ChannelGrid.deref g p !! i).

#[global] Instance in_grid_dec sz p : Decision (in_grid sz p).
Proof. unfold in_grid. apply _. Defined.

#[global] Instance covers_dec c p : Decision (covers c p).
Proof. unfold covers. apply _. Defined.

(** The grids reached from a fresh grid by successful [add_channel] calls,
    with the segments the calls returned, the latest first. *)
Inductive Placed (sz : Size.t) (T : Channel.Type_) :
    list Channel.t -> ChannelGrid.t -> Prop :=
  | Placed_init : Placed sz T [] (ChannelGrid.init sz T)
  | Placed_step hist g ch ch' g' :
      Placed sz T hist g ->
      ChannelGrid.add_channel ch g = (inr ch', g') ->
      Placed sz T (ch' :: hist) g'.

(** A sequence of calls, each on the grid the previous one left. *)
Fixpoint add_channels (chs : list Channel.t) : M ChannelGrid.t (list Channel.t) :=
  match chs with
  | [] => ret []
  | ch :: chs' =>
      (c <- ChannelGrid.add_channel ch ;;
       cs <- add_channels chs' ;;
       ret (c :: cs))%meth
  end.

(** Rectangularity as section 8 words it, over the whole grid, and as the
    code keeps it, line by line. *)
Definition grid_rectangular (sz : Size.t) (g : ChannelGrid.t) : Prop :=
  ∀ p q, in_grid sz p -> in_grid sz q ->
    length (ChannelGrid.deref g p) = length (ChannelGrid.deref g q).

Definition lines_rectangular (sz : Size.t) (T : Channel.Type_)
    (g : ChannelGrid.t) : Prop :=
  ∀ p q, in_grid sz p -> in_grid sz q -> across T p = across T q ->
    length (ChannelGrid.deref g p) = length (ChannelGrid.deref g q).

(** The number of cells of a line of a grid of orientation [T]. *)
Definition extent (T : Channel.Type_) (sz : Size.t) : Z :=
  match T with
  | Channel.X => Size.y sz
  | Channel.Y => Size.x sz
  end.

(** The references [column] and [row] give for the line [c] of a grid
    whose keys are all there. *)
Definition line_refs (T : Channel.Type_) (sz : Size.t) (c : Z) : list Pos.t :=
  match T with
  | Channel.X => (fun y => (c, y)) <$> seqZ 0 (Size.y sz)
  | Channel.Y => (fun x => (x, c)) <$> seqZ 0 (Size.x sz)
  end.

(** [add_channel] in pieces, for the proofs.  [checked] is the type check,
    giving the segment as the check leaves it; [located] finds the line and
    the range and makes the assertions on them; [prepare] is the two of them
    after the assertion on the index, that is, all that [add_channel] does
    before the search, which reads only; [place] is the part from the search
    on, which writes.  [add_channel_split] shows that [prepare] followed by
    [place] is [add_channel]. *)
Definition checked (ch : Channel.t) (g : ChannelGrid.t) : res Channel.t :=
  (ty <- Channel.type ch ;;
   if bool_decide (ty ≠ ChannelGrid.chan_type g) then
     n <- Channel.length ch ;;
     if bool_decide (n ≠ 0%Z) then throw TypeError
     else ok (Channel.set_type ch (ChannelGrid.chan_type g))
   else ok ch)%res.

Definition located (ch : Channel.t) (g : ChannelGrid.t) :
    res (Channel.t * list Pos.t * Z * Z) :=
  (ty <- Channel.type ch ;;
   l <- match ty with
        | Channel.X => c <- Channel.common ch ;; ChannelGrid.column g c
        | Channel.Y => c <- Channel.common ch ;; ChannelGrid.row g c
        end ;;
   _ <- (ChannelGrid.assert_len_eq l g).1 ;;
   s <- Channel.start0 ch ;;
   e <- Channel.end0 ch ;;
   d <- Channel.direction ch ;;
   let s' := if bool_decide (d = Channel.DEC) then e else s in
   let e' := if bool_decide (d = Channel.DEC) then s else e in
   if bool_decide (e' >= s')%Z
      && bool_decide (s' < Z.of_nat (length l))%Z
      && bool_decide (e' < Z.of_nat (length l))%Z
   then ok (ch, l, s', e')
   else throw AssertionError)%res.

Definition prepare (ch : Channel.t) (g : ChannelGrid.t) :
    res (Channel.t * list Pos.t * Z * Z) :=
  (if bool_decide (Channel.idx ch = None) then
     ch <- checked ch g ;; located ch g
   else throw AssertionError)%res.

Definition place (ch : Channel.t) (l : list Pos.t) (s' e' : Z) :
    M ChannelGrid.t Channel.t :=
  (self <- get ;;
   max_idx <- ChannelGrid.search
                (ChannelGrid.search_bound (slice l s' (e' + 1)) self)
                (slice l s' (e' + 1)) 0 ;;
   for_each (ChannelGrid.pad_cell (max_idx + 1)) l ;;;
   ChannelGrid.assert_len_eq l ;;;
   ch <- lift (Channel.update_idx (Some (Z.of_nat max_idx)) ch).1 ;;
   assert_ (bool_decide (Channel.idx ch = Some (Z.of_nat max_idx))) ;;;
   for_each (fun p =>
               match Channel.idx ch with
               | Some i => ChannelGrid.cell_set p i (Some ch)
               | None => raise TypeError
               end) (slice l s' (e' + 1)) ;;;
   ret ch)%meth.

(** [g'] is [g] with some cells of [ps] padded, to [n] entries at most.
    Padding to [0] entries changes nothing. *)
Definition Padded (ps : list Pos.t) (n : nat) (g g' : ChannelGrid.t) : Prop :=
  ChannelGrid.chan_type g' = ChannelGrid.chan_type g
  ∧ ChannelGrid.size g' = ChannelGrid.size g
  ∧ ∀ p, ∃ j, j ≤ n ∧ (p ∉ ps -> j = 0)
      ∧ ChannelGrid.cells g' !! p
        = ChannelGrid.pad j <$> ChannelGrid.cells g !! p.

(** The shape every reachable grid has: the attributes it was created with,
    a list for each cell of the rectangle and for nothing else, and lists of
    one length along each line. *)
Definition wf (sz : Size.t) (T : Channel.Type_) (g : ChannelGrid.t) : Prop :=
  ChannelGrid.chan_type g = T
  ∧ ChannelGrid.size g = sz
  ∧ (∀ p, is_Some (ChannelGrid.cells g !! p) <-> in_grid sz p)
  ∧ lines_rectangular sz T g.

(** The lists of a grid and the segments placed so far agree: what a cell
    holds at index [i] is a placed segment with index [i] that covers the
    cell, and every placed segment is found, at its index, in each cell it
    covers. *)
Definition consistent (sz : Size.t) (hist : list Channel.t)
    (g : ChannelGrid.t) : Prop :=
  (∀ p i c, in_grid sz p -> track g p i = Some c ->
     c ∈ hist ∧ Channel.idx c = Some (Z.of_nat i) ∧ covers c p)
  ∧ (∀ c p, c ∈ hist -> in_grid sz p -> covers c p ->
       ∃ i, Channel.idx c = Some (Z.of_nat i) ∧ track g p i = Some c).

(** No two placed segments share an index on a cell both cover. *)
Definition no_collision (sz : Size.t) (hist : list Channel.t) : Prop :=
  ∀ i j c1 c2 p, i ≠ j -> hist !! i = Some c1 -> hist !! j = Some c2 ->
    in_grid sz p -> covers c1 p -> covers c2 p ->
    Channel.idx c1 ≠ Channel.idx c2.

(** Index [i] is free for segment [ch]: no placed segment occupies it in a
    cell that [ch] covers. *)
Definition index_free (hist : list Channel.t) (g : ChannelGrid.t)
    (ch : Channel.t) (i : nat) : Prop :=
  ∀ p c, covers ch p -> c ∈ hist -> track g p i ≠ Some c.

(** The worked example of the docstring of [add_channel]. *)
Definition doc_grid : ChannelGrid.t := ChannelGrid.init (10, 10)%Z Channel.Y.

Definition doc_segment (a b : Pos.t) (name : string) : Channel.t :=
  Channel.mk a b None (Some name) None.

Definition doc_A := doc_segment (0, 5)%Z (3, 5)%Z "A".
Definition doc_B := doc_segment (4, 5)%Z (6, 5)%Z "B".
Definition doc_C := doc_segment (4, 5)%Z (6, 5)%Z "C".
Definition doc_D := doc_segment (4, 6)%Z (6, 6)%Z "D".
Definition doc_E := doc_segment (2, 5)%Z (5, 5)%Z "E".
Definition doc_F := doc_segment (0, 5)%Z (2, 5)%Z "F".
Definition doc_G := doc_segment (0, 5)%Z (6, 5)%Z "G".

(** The grid of the example after the first call and after the second. *)
Definition doc_grid_A : ChannelGrid.t :=
  (ChannelGrid.add_channel doc_A doc_grid).2.

Definition doc_grid_AB : ChannelGrid.t :=
  (ChannelGrid.add_channel doc_B doc_grid_A).2.

(** The grid after the third call, which places [C] over [B]. *)
Definition doc_grid_ABC : ChannelGrid.t :=
  (ChannelGrid.add_channel doc_C doc_grid_AB).2.

(** A segment of row 5 that starts one cell before the line. *)
Definition doc_N := doc_segment (-1, 5)%Z (2, 5)%Z "N".

(** The example at the end of the module: a grid of two rows of five
    cells; [DD] is a segment of one point. *)
Definition main_grid : ChannelGrid.t := ChannelGrid.init (5, 2)%Z Channel.Y.

Definition main_segments : list Channel.t :=
  [doc_segment (0, 0)%Z (4, 0)%Z "AA"; doc_segment (0, 0)%Z (2, 0)%Z "BB";
   doc_segment (1, 0)%Z (4, 0)%Z "CC"; doc_segment (0, 0)%Z (0, 0)%Z "DD";
   doc_segment (0, 1)%Z (2, 1)%Z "aa"; doc_segment (3, 1)%Z (4, 1)%Z "bb";
   doc_segment (0, 1)%Z (4, 1)%Z "cc"].

(** A segment with its index set, as [add_channel] returns it. *)
Definition indexed (c : Channel.t) (i : Z) : Channel.t :=
  Channel.mk (Channel.start c) (Channel.end_ c) (Some i)
    (Channel.id_override c) None.

(** The post-state of a successful call as section 4.2 words it: every
    list of the line has [k + 1] entries at least, the cells of the range
    hold the segment at [k], and the other cells of the line hold [None]
    at [k]. *)
Definition post_as_stated (sz : Size.t) (T : Channel.Type_)
    (ch ch' : Channel.t) (g' : ChannelGrid.t) : Prop :=
  ∃ k : nat,
    ch' = indexed ch (Z.of_nat k)
    ∧ (∀ p, in_grid sz p -> across T p = across T (Channel.start ch) ->
         k + 1 ≤ length (ChannelGrid.deref g' p))
    ∧ (∀ p, in_grid sz p -> covers ch p ->
         ChannelGrid.deref g' p !! k = Some (Some ch'))
    ∧ (∀ p, in_grid sz p -> across T p = across T (Channel.start ch) ->
         ¬ covers ch p -> ChannelGrid.deref g' p !! k = Some None).

(** ** Notions for the further properties *)

(** The number of lines of a grid of orientation [T]. *)
Definition lines (T : Channel.Type_) (sz : Size.t) : Z :=
  match T with
  | Channel.X => Size.x sz
  | Channel.Y => Size.y sz
  end.

(** The line [c] of a grid of orientation [T] can be fetched: each of its
    cells is a key of the dict, which holds also of a line without cells. *)
Definition line_exists (T : Channel.Type_) (sz : Size.t) (c : Z) : Prop :=
  (extent T sz ≤ 0)%Z ∨ (0 ≤ c < lines T sz)%Z.

(** The segments [add_channel] takes, on a grid of orientation [T] and size
    [sz]: no index yet, both ends on one line of the grid, a line that can
    be fetched, and a range that ends inside it.  Nothing is asked of where
    the range starts. *)
Definition accepts (sz : Size.t) (T : Channel.Type_) (ch : Channel.t) : Prop :=
  Channel.idx ch = None
  ∧ across T (Channel.start ch) = across T (Channel.end_ ch)
  ∧ line_exists T sz (across T (Channel.start ch))
  ∧ (span_end T ch < Z.max 0 (extent T sz))%Z.

#[global] Instance line_exists_dec T sz c : Decision (line_exists T sz c).
Proof. unfold line_exists. apply _. Defined.

#[global] Instance accepts_dec sz T ch : Decision (accepts sz T ch).
Proof. unfold accepts. apply _. Defined.

(** The exception [add_channel] raises for a segment it does not take. *)
Definition rejection (sz : Size.t) (T : Channel.Type_) (ch : Channel.t) : exn :=
  if decide (Channel.idx ch = None) then
    if decide (across T (Channel.start ch) = across T (Channel.end_ ch)) then
      if decide (line_exists T sz (across T (Channel.start ch))) then
        AssertionError
      else KeyError
    else TypeError
  else AssertionError.

(** The same segment given from its other end. *)
Definition reversed (c : Channel.t) : Channel.t :=
  Channel.mk (Channel.end_ c) (Channel.start c) (Channel.idx c)
    (Channel.id_override c) (Channel.type_attr c).

(** The digits of a decimal numeral. *)
Definition digit (c : Ascii.ascii) : bool :=
  bool_decide (c ∈ String.list_ascii_of_string "0123456789").

Fixpoint digits (s : string) : Prop :=
  match s with
  | EmptyString => True
  | String c s' => digit c = true ∧ digits s'
  end.

(** A text that no numeral runs into: empty, or led by a character that is
    no digit. *)
Definition stops (s : string) : Prop :=
  match s with
  | EmptyString => True
  | String c _ => digit c = false
  end.

(** The cells of each row of the rectangle hold lists of one length. *)
Definition rows_even (sz : Size.t) (g : ChannelGrid.t) : Prop :=
  ∀ y x1 x2, in_grid sz (x1, y) -> in_grid sz (x2, y) ->
    length (ChannelGrid.deref g (x1, y)) = length (ChannelGrid.deref g (x2, y)).

(** Lists of one length. *)
Definition even {A} (l : list (list A)) : Prop :=
  ∀ p q, p ∈ l -> q ∈ l -> length p = length q.

(** The texts of a row: one list for each column, as long as the list of
    the cell and one more. *)
Definition row_texts (g : ChannelGrid.t) (y : Z) (cols : list (list string))
    : Prop :=
  Forall2 (fun x texts =>
             length texts = S (length (ChannelGrid.deref g (x, y))))
    (seqZ 0 (ChannelGrid.x g)) cols.

(** * Properties *)

(** ** The monads *)

Lemma bind_inr {S A B} (m : M S A) (k : A -> M S B) s a s' :
  m s = (inr a, s') -> bind m k s = k a s'.
Proof. unfold bind. intros ->. reflexivity. Qed.

Lemma bind_inl {S A B} (m : M S A) (k : A -> M S B) s e s' :
  m s = (inl e, s') -> bind m k s = (inl e, s').
Proof. unfold bind. intros ->. reflexivity. Qed.

(** ** Padding a track list *)

Section pad.
Implicit Types (l : list (option Channel.t)) (n m i : nat).

Lemma pad_length n l : length (ChannelGrid.pad n l) = Nat.max n (length l).
Proof. unfold ChannelGrid.pad. rewrite length_app, length_replicate. lia. Qed.

Lemma pad_ge n l : n ≤ length l -> ChannelGrid.pad n l = l.
Proof.
  intros H. unfold ChannelGrid.pad.
  replace (n - length l) with 0 by lia. apply app_nil_r.
Qed.

Lemma pad_0 l : ChannelGrid.pad 0 l = l.
Proof. apply pad_ge. lia. Qed.

Lemma pad_pad n m l :
  ChannelGrid.pad n (ChannelGrid.pad m l) = ChannelGrid.pad (Nat.max n m) l.
Proof.
  unfold ChannelGrid.pad at 1. rewrite pad_length. unfold ChannelGrid.pad.
  rewrite <- app_assoc, <- replicate_add. f_equal. f_equal. lia.
Qed.

Lemma pad_lookup_lt n l i :
  i < length l -> ChannelGrid.pad n l !! i = l !! i.
Proof. intros H. unfold ChannelGrid.pad. by rewrite lookup_app_l. Qed.

Lemma pad_lookup_new n l i :
  length l ≤ i -> i < n -> ChannelGrid.pad n l !! i = Some None.
Proof.
  intros H1 H2. unfold ChannelGrid.pad. rewrite lookup_app_r by done.
  apply lookup_replicate_2. lia.
Qed.

Lemma pad_lookup_Some n l i c :
  ChannelGrid.pad n l !! i = Some (Some c) <-> l !! i = Some (Some c).
Proof.
  destruct (decide (i < length l)) as [H|H].
  - by rewrite pad_lookup_lt.
  - split; intros E.
    + unfold ChannelGrid.pad in E. rewrite lookup_app_r in E by lia.
      apply lookup_replicate in E as [E _]. done.
    + apply lookup_lt_Some in E. lia.
Qed.

Lemma index_of_nat {A} (t : list A) i :
  i < length t -> index t (Z.of_nat i) = ok i.
Proof.
  intros H. unfold index. rewrite bool_decide_eq_true_2 by lia.
  by rewrite Nat2Z.id.
Qed.
End pad.

(** ** Cells: reading through a reference, updating through it *)

Section cells.
Implicit Types (g : ChannelGrid.t) (p q : Pos.t) (i k n : nat).
Implicit Types (ps : list Pos.t).

Lemma cells_update p f g q :
  ChannelGrid.cells (ChannelGrid.update p f g) !! q
  = if decide (p = q) then f <$> ChannelGrid.cells g !! q
    else ChannelGrid.cells g !! q.
Proof.
  unfold ChannelGrid.update. simpl. rewrite lookup_alter.
  by case_decide; subst.
Qed.

Lemma deref_Some g p t :
  ChannelGrid.cells g !! p = Some t -> ChannelGrid.deref g p = t.
Proof. unfold ChannelGrid.deref. by intros ->. Qed.

Lemma deref_fmap g g' p f :
  is_Some (ChannelGrid.cells g !! p) ->
  ChannelGrid.cells g' !! p = f <$> ChannelGrid.cells g !! p ->
  ChannelGrid.deref g' p = f (ChannelGrid.deref g p).
Proof. unfold ChannelGrid.deref. intros [t ->] ->. done. Qed.

Lemma track_Some g p i c :
  track g p i = Some c <-> ChannelGrid.deref g p !! i = Some (Some c).
Proof.
  unfold track. destruct (ChannelGrid.deref g p !! i) as [[?|]|]; naive_solver.
Qed.

Lemma fmap_pad_0 (o : option (list (option Channel.t))) :
  ChannelGrid.pad 0 <$> o = o.
Proof. destruct o; simpl; by rewrite ?pad_0. Qed.

Lemma Padded_refl ps n g : Padded ps n g g.
Proof.
  split; [done|]. split; [done|]. intros p. exists 0. rewrite fmap_pad_0.
  split; [lia|]. by split.
Qed.

Lemma Padded_trans ps n m g1 g2 g3 :
  Padded ps n g1 g2 -> Padded ps m g2 g3 -> Padded ps (Nat.max n m) g1 g3.
Proof.
  intros (Ht1 & Hs1 & H1) (Ht2 & Hs2 & H2).
  split; [congruence|]. split; [congruence|]. intros p.
  destruct (H1 p) as (j1 & Hj1 & Hz1 & E1).
  destruct (H2 p) as (j2 & Hj2 & Hz2 & E2).
  exists (Nat.max j2 j1). split; [lia|]. split.
  - intros Hp. rewrite Hz1, Hz2 by done. done.
  - rewrite E2, E1. destruct (ChannelGrid.cells g1 !! p); simpl; [|done].
    by rewrite pad_pad.
Qed.

Lemma Padded_weaken ps ps' n m g g' :
  ps ⊆ ps' -> n ≤ m -> Padded ps n g g' -> Padded ps' m g g'.
Proof.
  intros Hsub Hle (Ht & Hs & H). split; [done|]. split; [done|]. intros p.
  destruct (H p) as (j & Hj & Hz & E). exists j.
  split; [lia|]. split; [|done]. intros Hp. apply Hz. intros Hin.
  apply Hp, Hsub, Hin.
Qed.

Lemma Padded_is_Some ps n g g' p :
  Padded ps n g g' ->
  is_Some (ChannelGrid.cells g' !! p) <-> is_Some (ChannelGrid.cells g !! p).
Proof.
  intros (_ & _ & H). destruct (H p) as (j & _ & _ & ->).
  by rewrite fmap_is_Some.
Qed.

Lemma Padded_deref ps n g g' p :
  Padded ps n g g' ->
  ∃ j, j ≤ n ∧ (p ∉ ps -> j = 0)
    ∧ ChannelGrid.deref g' p = ChannelGrid.pad j (ChannelGrid.deref g p).
Proof.
  intros (_ & _ & H). destruct (H p) as (j & Hj & Hz & E).
  unfold ChannelGrid.deref. rewrite E.
  destruct (ChannelGrid.cells g !! p); simpl.
  - by exists j.
  - exists 0. split; [lia|]. split; [done|]. by rewrite pad_0.
Qed.

(** Padding adds no segment and removes none. *)
Lemma Padded_track ps n g g' p i :
  Padded ps n g g' -> track g' p i = track g p i.
Proof.
  intros H. destruct (Padded_deref _ _ _ _ p H) as (j & _ & _ & E).
  apply option_eq. intros c. rewrite !track_Some, E. apply pad_lookup_Some.
Qed.

Lemma pad_cell_Padded n p g :
  ChannelGrid.pad_cell n p g
  = (inr tt, ChannelGrid.update p (ChannelGrid.pad n) g)
  ∧ Padded [p] n g (ChannelGrid.update p (ChannelGrid.pad n) g).
Proof.
  split; [done|]. split; [done|]. split; [done|].
  intros q. rewrite cells_update. case_decide as E.
  - exists n. split; [lia|]. split; [|done]. intros Hq. subst.
    destruct Hq. left.
  - exists 0. rewrite fmap_pad_0. split; [lia|]. by split.
Qed.
End cells.

(** ** The search for the index *)

Section search.
Implicit Types (g : ChannelGrid.t) (p q : Pos.t) (i k n : nat).
Implicit Types (ps : list Pos.t).

(** One pass over the cells: it pads, and it is left through [break]
    exactly when some cell holds a segment at the candidate index. *)
Lemma scan_spec ps i g :
  (∀ p, p ∈ ps -> is_Some (ChannelGrid.cells g !! p)) ->
  ∃ b g', ChannelGrid.scan ps i g = (inr b, g')
    ∧ Padded ps (i + 1) g g'
    ∧ (b = true <-> ∃ p, p ∈ ps ∧ is_Some (track g p i)).
Proof.
  revert g. induction ps as [|p ps IH]; intros g Hdom.
  - exists false, g. split; [done|]. split; [apply Padded_refl|].
    split; [done|]. intros (p & Hp & _). by apply elem_of_nil in Hp.
  - destruct (pad_cell_Padded (i + 1) p g) as [Hrun Hpad].
    set (g1 := ChannelGrid.update p (ChannelGrid.pad (i + 1)) g) in *.
    assert (Hp : is_Some (ChannelGrid.cells g !! p)) by (apply Hdom; left).
    assert (Hd : ChannelGrid.deref g1 p
                 = ChannelGrid.pad (i + 1) (ChannelGrid.deref g p)).
    { apply deref_fmap; [done|]. unfold g1. rewrite cells_update.
      by rewrite decide_True. }
    assert (Hlen : i < length (ChannelGrid.deref g1 p)).
    { rewrite Hd, pad_length. lia. }
    destruct (lookup_lt_is_Some_2 _ _ Hlen) as [v Hv].
    assert (Hget : ChannelGrid.cell_get p (Z.of_nat i) g1 = (inr v, g1)).
    { unfold ChannelGrid.cell_get. rewrite index_of_nat by done.
      simpl. by rewrite Hv. }
    assert (Htr : track g p i = v).
    { rewrite <- (Padded_track _ _ _ _ p i Hpad). unfold track.
      by rewrite Hv. }
    simpl. rewrite (bind_inr _ _ _ _ _ Hrun), (bind_inr _ _ _ _ _ Hget).
    destruct v as [c|].
    + rewrite bool_decide_eq_true_2 by done. exists true, g1.
      split; [done|]. split.
      { eapply Padded_weaken; [| |exact Hpad]; [|lia].
        intros q Hq. apply list_elem_of_singleton in Hq as ->. left. }
      split; [|done]. intros _. exists p. split; [left|]. by rewrite Htr.
    + rewrite bool_decide_eq_false_2 by (intros E; by apply E).
      destruct (IH g1) as (b & g' & Hscan & Hpad' & Hb).
      { intros q Hq. apply (Padded_is_Some _ _ _ _ q Hpad), Hdom.
        by right. }
      exists b, g'. split; [done|]. split.
      { replace (i + 1) with (Nat.max (i + 1) (i + 1)) by lia.
        eapply Padded_trans.
        - eapply Padded_weaken; [| |exact Hpad]; [|lia].
          intros q Hq. apply list_elem_of_singleton in Hq as ->. left.
        - eapply Padded_weaken; [| |exact Hpad']; [|lia].
          intros q Hq. by right. }
      rewrite Hb. split.
      * intros (q & Hq & Ho). exists q. split; [by right|].
        by rewrite <- (Padded_track _ _ _ _ q i Hpad).
      * intros (q & Hq & Ho). apply elem_of_cons in Hq as [->|Hq].
        { rewrite Htr in Ho. by destruct Ho. }
        exists q. split; [done|].
        by rewrite (Padded_track _ _ _ _ q i Hpad).
Qed.

(** The loop returns the least index, from [i] on, that is free in every
    cell; [n] iterations are enough when no cell holds a segment at or
    beyond index [i + n - 1]. *)
Lemma search_spec n ps i g :
  (∀ p, p ∈ ps -> is_Some (ChannelGrid.cells g !! p)) ->
  (∀ p j, p ∈ ps -> is_Some (track g p j) -> j < i + n) ->
  ∃ k g', ChannelGrid.search (S n) ps i g = (inr k, g')
    ∧ Padded ps (k + 1) g g'
    ∧ i ≤ k
    ∧ (∀ p, p ∈ ps -> track g p k = None)
    ∧ (∀ j, i ≤ j < k -> ∃ p, p ∈ ps ∧ is_Some (track g p j)).
Proof.
  revert i g. induction n as [|n IH]; intros i g Hdom Hbound;
    destruct (scan_spec ps i g Hdom) as (b & g1 & Hscan & Hpad & Hb);
    simpl; rewrite (bind_inr _ _ _ _ _ Hscan); destruct b.
  - destruct (proj1 Hb eq_refl) as (p & Hp & Ho).
    specialize (Hbound p i Hp Ho). lia.
  - exists i, g1. split; [done|]. split; [done|]. split; [lia|]. split.
    + intros p Hp. destruct (track g p i) eqn:E; [|done].
      assert (false = true); [|done]. apply Hb. exists p. by rewrite E.
    + intros j Hj. lia.
  - destruct (IH (i + 1) g1) as (k & g' & Hs & Hpad' & Hle & Hfree & Hocc).
    { intros p Hp. by apply (Padded_is_Some _ _ _ _ p Hpad), Hdom. }
    { intros p j Hp Ho. rewrite (Padded_track _ _ _ _ p j Hpad) in Ho.
      specialize (Hbound p j Hp Ho). lia. }
    exists k, g'. split; [exact Hs|]. split.
    { replace (k + 1) with (Nat.max (i + 1) (k + 1)) by lia.
      by eapply Padded_trans. }
    split; [lia|]. split.
    + intros p Hp. rewrite <- (Padded_track _ _ _ _ p k Hpad). by apply Hfree.
    + intros j Hj. destruct (decide (j = i)) as [->|Hne].
      * by apply Hb.
      * destruct (Hocc j) as (p & Hp & Ho); [lia|]. exists p.
        split; [done|]. by rewrite <- (Padded_track _ _ _ _ p j Hpad).
  - exists i, g1. split; [done|]. split; [done|]. split; [lia|]. split.
    + intros p Hp. destruct (track g p i) eqn:E; [|done].
      assert (false = true); [|done]. apply Hb. exists p. by rewrite E.
    + intros j Hj. lia.
Qed.

Lemma search_bound_gt ps g p j :
  p ∈ ps -> is_Some (track g p j) -> S j < ChannelGrid.search_bound ps g.
Proof.
  intros Hp [c Hc]. apply track_Some, lookup_lt_Some in Hc.
  unfold ChannelGrid.search_bound.
  induction ps as [|q ps IH]; [by apply elem_of_nil in Hp|].
  cbn [map foldr]. apply elem_of_cons in Hp as [->|Hp].
  - lia.
  - specialize (IH Hp). lia.
Qed.

(** The loop never leaves the bound [add_channel] gives it. *)
Lemma search_total ps g :
  (∀ p, p ∈ ps -> is_Some (ChannelGrid.cells g !! p)) ->
  ∃ k g', ChannelGrid.search (ChannelGrid.search_bound ps g) ps 0 g
          = (inr k, g')
    ∧ Padded ps (k + 1) g g'
    ∧ (∀ p, p ∈ ps -> track g p k = None)
    ∧ (∀ j, j < k -> ∃ p, p ∈ ps ∧ is_Some (track g p j)).
Proof.
  intros Hdom. unfold ChannelGrid.search_bound.
  destruct (search_spec
              (foldr Nat.max 0
                 (map (fun p => length (ChannelGrid.deref g p)) ps))
              ps 0 g Hdom) as (k & g' & Hs & Hpad & _ & Hfree & Hocc).
  { intros p j Hp Ho. pose proof (search_bound_gt ps g p j Hp Ho) as H.
    unfold ChannelGrid.search_bound in H. lia. }
  exists k, g'. repeat (split; [done|]). intros j Hj. apply Hocc. lia.
Qed.
End search.

(** ** The loops over a line *)

Section loops.
Implicit Types (g : ChannelGrid.t) (p q : Pos.t) (i k n : nat).
Implicit Types (l ps : list Pos.t).

(** [for p in l: while len(p) < n: p.append(None)] *)
Lemma pad_all_spec n l g :
  ∃ g', for_each (ChannelGrid.pad_cell n) l g = (inr tt, g')
    ∧ ChannelGrid.chan_type g' = ChannelGrid.chan_type g
    ∧ ChannelGrid.size g' = ChannelGrid.size g
    ∧ ∀ p, ChannelGrid.cells g' !! p
           = if decide (p ∈ l)
             then ChannelGrid.pad n <$> ChannelGrid.cells g !! p
             else ChannelGrid.cells g !! p.
Proof.
  revert g. induction l as [|a l IH]; intros g.
  - exists g. repeat (split; [done|]). intros p.
    rewrite decide_False; [done|]. apply not_elem_of_nil.
  - set (g1 := ChannelGrid.update a (ChannelGrid.pad n) g).
    destruct (IH g1) as (g' & Hrun & Ht & Hs & Hc).
    exists g'. split; [|split; [done|split; [done|]]].
    { simpl. unfold bind, ChannelGrid.pad_cell, modify. exact Hrun. }
    intros p. rewrite Hc. unfold g1. rewrite cells_update.
    destruct (decide (a = p)) as [->|Hne].
    + rewrite (decide_True (P := p ∈ p :: l)) by left.
      case_decide; [|done].
      destruct (ChannelGrid.cells g !! p); simpl; [|done].
      rewrite pad_pad. do 2 f_equal. lia.
    + destruct (decide (p ∈ l)) as [Hin|Hin].
      * rewrite decide_True; [done|]. by right.
      * rewrite decide_False; [done|].
        intros [->|?]%elem_of_cons; done.
Qed.

(** [for p in ps: p[ch.idx] = ch] *)
Lemma store_spec ps k ch g :
  Channel.idx ch = Some (Z.of_nat k) ->
  (∀ p, p ∈ ps -> k < length (ChannelGrid.deref g p)) ->
  ∃ g', for_each (fun p => match Channel.idx ch with
                           | Some i => ChannelGrid.cell_set p i (Some ch)
                           | None => raise TypeError
                           end) ps g = (inr tt, g')
    ∧ ChannelGrid.chan_type g' = ChannelGrid.chan_type g
    ∧ ChannelGrid.size g' = ChannelGrid.size g
    ∧ ∀ p, ChannelGrid.cells g' !! p
           = if decide (p ∈ ps)
             then (fun t => <[k := Some ch]> t) <$> ChannelGrid.cells g !! p
             else ChannelGrid.cells g !! p.
Proof.
  intros Hidx. revert g. induction ps as [|a ps IH]; intros g Hlen.
  - exists g. repeat (split; [done|]). intros p.
    rewrite decide_False; [done|]. apply not_elem_of_nil.
  - set (g1 := ChannelGrid.update a (fun t => <[k := Some ch]> t) g).
    assert (Ha : k < length (ChannelGrid.deref g a)) by (apply Hlen; left).
    assert (Hd : ∀ q, length (ChannelGrid.deref g1 q)
                      = length (ChannelGrid.deref g q)).
    { intros q. unfold ChannelGrid.deref, g1. rewrite cells_update.
      case_decide; [subst|done].
      destruct (ChannelGrid.cells g !! q); simpl; [|done].
      apply length_insert. }
    destruct (IH g1) as (g' & Hrun & Ht & Hs & Hc).
    { intros q Hq. rewrite Hd. apply Hlen. by right. }
    exists g'. split; [|split; [done|split; [done|]]].
    { simpl. rewrite Hidx in *. unfold bind at 1, ChannelGrid.cell_set.
      rewrite index_of_nat by done. exact Hrun. }
    intros p. rewrite Hc. unfold g1. rewrite cells_update.
    destruct (decide (a = p)) as [->|Hne].
    + rewrite (decide_True (P := p ∈ p :: ps)) by left.
      case_decide; [|done].
      destruct (ChannelGrid.cells g !! p); simpl; [|done].
      by rewrite list_insert_insert_eq.
    + destruct (decide (p ∈ ps)) as [Hin|Hin].
      * rewrite decide_True; [done|]. by right.
      * rewrite decide_False; [done|].
        intros [->|?]%elem_of_cons; done.
Qed.

(** [assert_len_eq] changes nothing; it passes on a line whose lists have
    one length and only on such a line. *)
Lemma assert_len_eq_cases l g :
  (ChannelGrid.assert_len_eq l g = (inr tt, g)
   ∧ ∀ p q, p ∈ l -> q ∈ l ->
       length (ChannelGrid.deref g p) = length (ChannelGrid.deref g q))
  ∨ (ChannelGrid.assert_len_eq l g = (inl AssertionError, g)
     ∧ ∃ p q, p ∈ l ∧ q ∈ l
         ∧ length (ChannelGrid.deref g p) ≠ length (ChannelGrid.deref g q)).
Proof.
  destruct l as [|a l]; simpl.
  { left. split; [done|]. intros p q Hp. by apply elem_of_nil in Hp. }
  destruct (forallb _ l) eqn:E.
  - left. split; [done|].
    assert (H : ∀ p, p ∈ a :: l ->
              length (ChannelGrid.deref g p) = length (ChannelGrid.deref g a)).
    { intros p [->|Hp]%elem_of_cons; [done|].
      apply Is_true_true_2, forallb_True in E.
      rewrite Forall_forall in E. specialize (E p Hp).
      apply Is_true_true_1 in E. by apply Nat.eqb_eq in E. }
    intros p q Hp Hq. by rewrite (H p), (H q).
  - right. split; [done|].
    assert (H : ¬ Forall (fun q => length (ChannelGrid.deref g q)
                                   = length (ChannelGrid.deref g a)) l).
    { intros H. rewrite <- not_true_iff_false in E. apply E.
      apply Is_true_true_1, forallb_True.
      eapply Forall_impl; [exact H|]. intros q Hq. simpl in Hq.
      apply Is_true_true_2. by apply Nat.eqb_eq. }
    apply not_Forall_Exists in H; [|intros q; apply _].
    apply Exists_exists in H as (q & Hq & Hne).
    exists q, a. split; [by right|]. split; [left|done].
Qed.

(** Fetching the references of a line: all its keys, or [KeyError]. *)
Lemma collect_getitem g (key : Z -> Pos.t) (zs : list Z) :
  collect (fun z => ChannelGrid.getitem g (key z)) zs
  = if decide (Forall (fun z => is_Some (ChannelGrid.cells g !! key z)) zs)
    then inr (key <$> zs) else inl KeyError.
Proof.
  induction zs as [|z zs IH]; cbn [collect].
  - by rewrite decide_True by constructor.
  - unfold ChannelGrid.getitem at 1.
    destruct (ChannelGrid.cells g !! key z) as [t|] eqn:E; simpl.
    + rewrite IH. destruct (decide (Forall _ zs)) as [H|H]; simpl.
      * rewrite decide_True; [done|]. constructor; [by rewrite E|done].
      * rewrite decide_False; [done|]. by intros [_ ?]%Forall_cons.
    + rewrite decide_False; [done|]. intros [[? Hs] _]%Forall_cons.
      rewrite E in Hs. done.
Qed.

Lemma slice_subseteq {A} (l : list A) (i j : Z) : slice l i j ⊆ l.
Proof.
  unfold slice. etransitivity; [apply subseteq_take|apply subseteq_drop].
Qed.

(** The slice [l[s:e+1]] of a line for [0 <= s <= e < len(l)]: the cells
    at the positions [s] to [e]. *)
Lemma elem_of_slice_line (key : Z -> Pos.t) (w s e : Z) p :
  (0 ≤ s)%Z -> (s ≤ e)%Z -> (e < w)%Z ->
  p ∈ slice (key <$> seqZ 0 w) s (e + 1)
  <-> ∃ z, (s ≤ z ≤ e)%Z ∧ p = key z.
Proof.
  intros H0 Hse Hew. unfold slice, slice_bound.
  rewrite length_fmap, length_seqZ, Z2Nat.id by lia.
  rewrite !bool_decide_eq_false_2 by lia.
  rewrite !Z.min_l by lia.
  rewrite elem_of_take. split.
  - intros (i & Hi & Hlt). rewrite lookup_drop, list_lookup_fmap in Hi.
    apply fmap_Some in Hi as (z & Hz & ->).
    apply lookup_seqZ in Hz as [-> Hz]. eexists. split; [|done]. lia.
  - intros (z & Hz & ->). exists (Z.to_nat (z - s)). split; [|lia].
    rewrite lookup_drop, list_lookup_fmap.
    rewrite (lookup_seqZ_lt 0 w) by lia. simpl. do 2 f_equal. lia.
Qed.
End loops.

(** ** [add_channel] in two halves *)

Lemma assert_len_eq_state l g :
  (ChannelGrid.assert_len_eq l g).2 = g.
Proof. by destruct (assert_len_eq_cases l g) as [[-> _]|[-> _]]. Qed.

Lemma add_channel_split ch g :
  ChannelGrid.add_channel ch g
  = match prepare ch g with
    | inl e => (inl e, g)
    | inr (chv, l, s, e) => place chv l s e g
    end.
Proof.
  unfold ChannelGrid.add_channel, prepare, checked, located.
  unfold bind at 1. unfold assert_.
  destruct (bool_decide (Channel.idx ch = None)); simpl; [|done].
  unfold bind at 1. simpl. unfold bind at 1. unfold lift at 1.
  destruct (Channel.type ch) as [e|ty]; simpl; [done|].
  unfold bind at 1.
  assert (Hv :
    (if bool_decide (ty ≠ ChannelGrid.chan_type g)
     then (n <- lift (Channel.length ch) ;;
           if bool_decide (n ≠ 0%Z) then raise TypeError
           else ret (Channel.set_type ch (ChannelGrid.chan_type g)))%meth
     else ret ch) g
    = ((if bool_decide (ty ≠ ChannelGrid.chan_type g)
        then (n <- Channel.length ch ;;
              if bool_decide (n ≠ 0%Z) then throw TypeError
              else ok (Channel.set_type ch (ChannelGrid.chan_type g)))%res
        else ok ch), g)).
  { destruct (bool_decide (ty ≠ _)); [|done].
    unfold bind, lift. destruct (Channel.length ch) as [e|n]; simpl; [done|].
    by destruct (bool_decide (n ≠ 0%Z)). }
  rewrite Hv. clear Hv.
  destruct (if bool_decide (ty ≠ ChannelGrid.chan_type g) then _ else _)
    as [e|chv]; simpl; [done|].
  unfold bind at 1. unfold lift at 1.
  destruct (Channel.type chv) as [e|ty']; simpl; [done|].
  unfold bind at 1. unfold lift at 1.
  destruct (match ty' with Channel.X => _ | Channel.Y => _ end) as [e|l];
    simpl; [done|].
  unfold bind at 1.
  pose proof (assert_len_eq_state l g) as Hst.
  destruct (ChannelGrid.assert_len_eq l g) as [[e|[]] g0]; simpl in *; subst g0;
    [done|].
  unfold bind at 1. unfold lift at 1.
  destruct (Channel.start0 chv) as [e|s]; simpl; [done|].
  unfold bind at 1. unfold lift at 1.
  destruct (Channel.end0 chv) as [e0|e]; simpl; [done|].
  unfold bind at 1. unfold lift at 1.
  destruct (Channel.direction chv) as [e0|d]; simpl; [done|].
  unfold bind at 1.
  destruct (bool_decide (_ >= _)%Z); simpl; [|done].
  unfold bind at 1.
  destruct (bool_decide (_ < _)%Z); simpl; [|done].
  unfold bind at 1.
  destruct (bool_decide (_ < _)%Z); simpl; [|done].
  reflexivity.
Qed.


(** What a successful first half has established. *)
Lemma prepare_inv ch g chv l s e :
  prepare ch g = inr (chv, l, s, e) ->
  let T := ChannelGrid.chan_type g in
  Channel.idx ch = None
  ∧ (chv = ch ∨ chv = Channel.set_type ch T)
  ∧ Channel.type chv = inr T
  ∧ across T (Channel.start ch) = across T (Channel.end_ ch)
  ∧ Channel.common chv = inr (across T (Channel.start ch))
  ∧ l = line_refs T (ChannelGrid.size g) (across T (Channel.start ch))
  ∧ (∀ p, p ∈ l -> is_Some (ChannelGrid.cells g !! p))
  ∧ (∀ p q, p ∈ l -> q ∈ l ->
       length (ChannelGrid.deref g p) = length (ChannelGrid.deref g q))
  ∧ s = span_start T ch ∧ e = span_end T ch
  ∧ (e < Z.of_nat (length l))%Z.
Proof.
  intros H T. unfold prepare, checked, located in H. fold T in H.
  destruct (bool_decide (Channel.idx ch = None)) eqn:Hidx; [|done].
  apply bool_decide_eq_true in Hidx.
  destruct (Channel.type ch) as [?|ty] eqn:Hty; simpl in H; [done|].
  assert (Hchv : ∃ chv', (chv' = ch ∨ chv' = Channel.set_type ch T)
            ∧ Channel.type chv' = inr T
            ∧ (if bool_decide (ty ≠ T)
               then (n <- Channel.length ch ;;
                     if bool_decide (n ≠ 0%Z) then throw TypeError
                     else ok (Channel.set_type ch T))%res
               else ok ch) = inr chv').
  { destruct (bool_decide (ty ≠ T)) eqn:Hne.
    - destruct (Channel.length ch) as [?|n]; simpl in H; [done|].
      destruct (bool_decide (n ≠ 0%Z)) eqn:Hn; simpl in H; [done|].
      exists (Channel.set_type ch T). split; [by right|]. split; [done|].
      simpl. by rewrite Hn.
    - apply bool_decide_eq_false in Hne. apply dec_stable in Hne. subst ty.
      exists ch. split; [by left|]. by split. }
  destruct Hchv as (chv' & Hor & HT & Hchv). rewrite Hchv in H. simpl in H.
  rewrite HT in H. simpl in H.
  assert (Hse : Channel.start chv' = Channel.start ch
                ∧ Channel.end_ chv' = Channel.end_ ch).
  { by destruct Hor as [->| ->]. }
  destruct Hse as [Hs' He'].
  assert (Hc : ∃ cc, Channel.common chv' = inr cc
            ∧ cc = across T (Channel.start ch)
            ∧ cc = across T (Channel.end_ ch)
            ∧ (match T with
               | Channel.X => c <- Channel.common chv' ;; ChannelGrid.column g c
               | Channel.Y => c <- Channel.common chv' ;; ChannelGrid.row g c
               end)%res
              = collect (fun z => ChannelGrid.getitem g
                                    (match T with
                                     | Channel.X => (cc, z)
                                     | Channel.Y => (z, cc)
                                     end))
                  (seqZ 0 (match T with
                           | Channel.X => Size.y (ChannelGrid.size g)
                           | Channel.Y => Size.x (ChannelGrid.size g)
                           end))).
  { unfold Channel.common, Channel.static_property in *. rewrite HT in *.
    simpl in *. rewrite Hs', He' in *. destruct T; simpl in *.
    - destruct (bool_decide (Pos.x _ = Pos.x _)) eqn:E; simpl in H; [|done].
      apply bool_decide_eq_true in E. eexists. by repeat split.
    - destruct (bool_decide (Pos.y _ = Pos.y _)) eqn:E; simpl in H; [|done].
      apply bool_decide_eq_true in E. eexists. by repeat split. }
  destruct Hc as (cc & Hcom & Hcs & Hce & Hline). rewrite Hline in H.
  clear Hline.
  assert (Hl : ∃ l', collect (fun z => ChannelGrid.getitem g
                                    (match T with
                                     | Channel.X => (cc, z)
                                     | Channel.Y => (z, cc)
                                     end))
                  (seqZ 0 (match T with
                           | Channel.X => Size.y (ChannelGrid.size g)
                           | Channel.Y => Size.x (ChannelGrid.size g)
                           end)) = inr l'
            ∧ l' = line_refs T (ChannelGrid.size g) cc
            ∧ ∀ p, p ∈ l' -> is_Some (ChannelGrid.cells g !! p)).
  { rewrite collect_getitem in *. case_decide as Hall; [|done].
    eexists. split; [done|]. split; [by destruct T|].
    intros p (z & -> & Hz)%list_elem_of_fmap.
    rewrite Forall_forall in Hall. by apply Hall. }
  destruct Hl as (l' & Hcol & Hl' & Hdom). rewrite Hcol in H. simpl in H.
  destruct (assert_len_eq_cases l' g) as [[Hrun Hrect]|[Hrun _]];
    rewrite Hrun in H; simpl in H; [|done].
  assert (Hs0 : Channel.start0 chv' = inr (along T (Channel.start ch))).
  { unfold Channel.start0, Channel.static_property. rewrite HT, Hs'.
    by destruct T. }
  assert (He0 : Channel.end0 chv' = inr (along T (Channel.end_ ch))).
  { unfold Channel.end0, Channel.static_property. rewrite HT, He'.
    by destruct T. }
  unfold Channel.direction, Channel.static_property in H.
  rewrite Hs0, He0 in H. simpl in H.
  set (a := along T (Channel.start ch)) in *.
  set (b := along T (Channel.end_ ch)) in *.
  assert (Hfin : ∃ s' e', s' = Z.min a b ∧ e' = Z.max a b
            ∧ (if bool_decide (e' >= s')%Z
                  && bool_decide (s' < Z.of_nat (length l'))%Z
                  && bool_decide (e' < Z.of_nat (length l'))%Z
               then ok (chv', l', s', e') else throw AssertionError)
              = inr (chv, l, s, e)).
  { destruct (bool_decide (b < a)%Z) eqn:Hd; simpl in H.
    - apply bool_decide_eq_true in Hd.
      exists b, a. split; [lia|]. split; [lia|done].
    - apply bool_decide_eq_false in Hd.
      exists a, b. split; [lia|]. split; [lia|done]. }
  destruct Hfin as (s' & e' & Hs & He & Hfin).
  destruct (bool_decide (e' >= s')%Z); simpl in Hfin; [|done].
  destruct (bool_decide (s' < _)%Z); simpl in Hfin; [|done].
  destruct (bool_decide (e' < _)%Z) eqn:Helt; simpl in Hfin; [|done].
  apply bool_decide_eq_true in Helt.
  injection Hfin as <- <- <- <-.
  split; [done|]. split; [done|]. split; [done|]. split; [congruence|].
  split; [congruence|]. split; [congruence|]. split; [done|].
  split; [done|]. by repeat split.
Qed.

Lemma new_straight a b i o :
  Pos.x a = Pos.x b ∨ Pos.y a = Pos.y b ->
  Channel.new a b i o = inr (Channel.mk a b i o None).
Proof.
  intros H. unfold Channel.new.
  destruct (bool_decide (Pos.x a ≠ Pos.x b)) eqn:E1; [|done].
  destruct (bool_decide (Pos.y a ≠ Pos.y b)) eqn:E2; [|done].
  apply bool_decide_eq_true in E1, E2. by destruct H.
Qed.

(** The second half always succeeds on a line whose cells exist and have
    one length: the search returns the least free index [k], every cell of
    the line is padded to [k + 1] entries, and the segment, given the index
    [k], is written at position [k] of the cells of the slice. *)
Lemma place_spec chv l s e g :
  straight chv ->
  (∀ p, p ∈ l -> is_Some (ChannelGrid.cells g !! p)) ->
  (∀ p q, p ∈ l -> q ∈ l ->
     length (ChannelGrid.deref g p) = length (ChannelGrid.deref g q)) ->
  ∃ k g',
    let ch' := Channel.mk (Channel.start chv) (Channel.end_ chv)
                 (Some (Z.of_nat k)) (Channel.id_override chv) None in
    place chv l s e g = (inr ch', g')
    ∧ ChannelGrid.chan_type g' = ChannelGrid.chan_type g
    ∧ ChannelGrid.size g' = ChannelGrid.size g
    ∧ (∀ p, p ∈ slice l s (e + 1) -> track g p k = None)
    ∧ (∀ j, j < k -> ∃ p, p ∈ slice l s (e + 1) ∧ is_Some (track g p j))
    ∧ ∀ p, ChannelGrid.cells g' !! p
           = if decide (p ∈ slice l s (e + 1))
             then (fun t => <[k := Some ch']> (ChannelGrid.pad (k + 1) t))
                  <$> ChannelGrid.cells g !! p
             else if decide (p ∈ l)
             then ChannelGrid.pad (k + 1) <$> ChannelGrid.cells g !! p
             else ChannelGrid.cells g !! p.
Proof.
  intros Hstr Hdom Hrect.
  set (ps := slice l s (e + 1)).
  assert (Hsub : ps ⊆ l) by apply slice_subseteq.
  destruct (search_total ps g) as (k & g1 & Hsearch & Hpad & Hfree & Hocc).
  { intros p Hp. by apply Hdom, Hsub. }
  destruct (pad_all_spec (k + 1) l g1) as (g2 & Hpadall & Ht2 & Hs2 & Hc2).
  assert (Hcells2 : ∀ p, ChannelGrid.cells g2 !! p
            = if decide (p ∈ l)
              then ChannelGrid.pad (k + 1) <$> ChannelGrid.cells g !! p
              else ChannelGrid.cells g !! p).
  { intros p. rewrite Hc2. destruct Hpad as (_ & _ & Hp).
    destruct (Hp p) as (j & Hj & Hz & ->). case_decide as Hin.
    - destruct (ChannelGrid.cells g !! p); simpl; [|done].
      rewrite pad_pad. do 2 f_equal. lia.
    - rewrite Hz; [apply fmap_pad_0|]. intros Hps. by apply Hin, Hsub. }
  assert (Hderef2 : ∀ p, p ∈ l ->
            ChannelGrid.deref g2 p
            = ChannelGrid.pad (k + 1) (ChannelGrid.deref g p)).
  { intros p Hp. apply deref_fmap; [by apply Hdom|].
    by rewrite Hcells2, decide_True. }
  assert (Hlen2 : ChannelGrid.assert_len_eq l g2 = (inr tt, g2)).
  { destruct (assert_len_eq_cases l g2) as [[H _]|[_ (p & q & Hp & Hq & Hne)]];
      [done|].
    destruct Hne. rewrite !Hderef2, !pad_length by done.
    by rewrite (Hrect p q). }
  set (ch' := Channel.mk (Channel.start chv) (Channel.end_ chv)
                (Some (Z.of_nat k)) (Channel.id_override chv) None).
  destruct (store_spec ps k ch' g2) as (g3 & Hstore & Ht3 & Hs3 & Hc3);
    [done| |].
  { intros p Hp. rewrite Hderef2, pad_length by by apply Hsub. lia. }
  exists k, g3. fold ch'. split.
  { unfold place. unfold bind at 1. simpl. fold ps.
    rewrite (bind_inr _ _ _ _ _ Hsearch), (bind_inr _ _ _ _ _ Hpadall).
    rewrite (bind_inr _ _ _ _ _ Hlen2).
    unfold bind at 1, lift, Channel.update_idx. simpl.
    rewrite new_straight by done. fold ch'. simpl.
    rewrite bool_decide_eq_true_2 by done. unfold bind at 1. simpl.
    rewrite (bind_inr _ _ _ _ _ Hstore). done. }
  destruct Hpad as (Ht1 & Hs1 & _).
  split; [congruence|]. split; [congruence|]. split; [done|]. split; [done|].
  intros p. rewrite Hc3, Hcells2. fold ps. case_decide as Hps; [|done].
  rewrite decide_True by by apply Hsub.
  by destruct (ChannelGrid.cells g !! p).
Qed.

(** ** Outcomes of [add_channel] *)

(** A call that raises leaves the grid as it was: every exception comes
    from the first half. *)
Lemma add_channel_inl ch g e g' :
  ChannelGrid.add_channel ch g = (inl e, g') ->
  g' = g ∧ prepare ch g = inl e.
Proof.
  rewrite add_channel_split.
  destruct (prepare ch g) as [e'|[[[chv l] s] e']] eqn:Hp.
  - intros [= -> ->]. done.
  - apply prepare_inv in Hp
      as (_ & Hor & _ & Hacr & _ & _ & Hdom & Hrect & _).
    destruct (place_spec chv l s e' g) as (k & g2 & Hpl & _); [|done..|].
    { unfold straight. destruct Hor as [->| ->]; simpl;
        destruct (ChannelGrid.chan_type g); simpl in Hacr; auto. }
    rewrite Hpl. done.
Qed.

(** What a successful call has done. *)
Lemma add_channel_inr ch g ch' g' :
  ChannelGrid.add_channel ch g = (inr ch', g') ->
  let T := ChannelGrid.chan_type g in
  let l := line_refs T (ChannelGrid.size g) (across T (Channel.start ch)) in
  let ps := slice l (span_start T ch) (span_end T ch + 1) in
  ∃ k,
    ch' = Channel.mk (Channel.start ch) (Channel.end_ ch) (Some (Z.of_nat k))
            (Channel.id_override ch) None
    ∧ Channel.idx ch = None
    ∧ across T (Channel.start ch) = across T (Channel.end_ ch)
    ∧ (∀ p, p ∈ l -> is_Some (ChannelGrid.cells g !! p))
    ∧ (span_end T ch < Z.of_nat (length l))%Z
    ∧ ChannelGrid.chan_type g' = T
    ∧ ChannelGrid.size g' = ChannelGrid.size g
    ∧ (∀ p, p ∈ ps -> track g p k = None)
    ∧ (∀ j, j < k -> ∃ p, p ∈ ps ∧ is_Some (track g p j))
    ∧ ∀ p, ChannelGrid.cells g' !! p
           = if decide (p ∈ ps)
             then (fun t => <[k := Some ch']> (ChannelGrid.pad (k + 1) t))
                  <$> ChannelGrid.cells g !! p
             else if decide (p ∈ l)
             then ChannelGrid.pad (k + 1) <$> ChannelGrid.cells g !! p
             else ChannelGrid.cells g !! p.
Proof.
  intros H T l ps. rewrite add_channel_split in H.
  destruct (prepare ch g) as [e'|[[[chv l0] s] e]] eqn:Hp; [done|].
  apply prepare_inv in Hp
    as (Hidx & Hor & _ & Hacr & _ & -> & Hdom & Hrect & -> & -> & Hlt).
  fold T l in Hdom, Hrect, Hlt, H.
  destruct (place_spec chv l (span_start T ch) (span_end T ch) g)
    as (k & g2 & Hpl & Ht & Hs & Hfree & Hocc & Hcells); [|done..|].
  { clear -Hor Hacr. unfold straight. revert Hacr.
    destruct Hor as [->| ->]; simpl;
      destruct (ChannelGrid.chan_type g); simpl; auto. }
  rewrite Hpl in H. injection H as <- <-.
  assert (Hse : Channel.start chv = Channel.start ch
                ∧ Channel.end_ chv = Channel.end_ ch
                ∧ Channel.id_override chv = Channel.id_override ch).
  { by destruct Hor as [->| ->]. }
  destruct Hse as (E1 & E2 & E3). rewrite E1, E2, E3 in *.
  exists k. repeat (split; [done|]). exact Hcells.
Qed.

Lemma rbind_inl {A B} (m : res A) (k : A -> res B) e :
  rbind m k = inl e -> m = inl e ∨ ∃ a, m = inr a ∧ k a = inl e.
Proof. destruct m as [e'|a]; simpl; [intros [= ->]; by left|]. eauto. Qed.

(** Closes a goal from an equation between outcomes that cannot hold, or
    reads the exception off it. *)
Ltac res_inv H :=
  unfold ok, throw in H;
  first [discriminate H | injection H as <-; auto].

Lemma type_inl c e : Channel.type c = inl e -> e = AssertionError.
Proof.
  unfold Channel.type, Channel.static_property.
  destruct (Channel.type_attr c); [done|].
  repeat case_bool_decide; intros E; res_inv E.
Qed.

Lemma start0_inl c e : Channel.start0 c = inl e -> e = AssertionError.
Proof.
  unfold Channel.start0, Channel.static_property.
  intros [H|([] & _ & H)]%rbind_inl; [by apply type_inl in H|done..].
Qed.

Lemma end0_inl c e : Channel.end0 c = inl e -> e = AssertionError.
Proof.
  unfold Channel.end0, Channel.static_property.
  intros [H|([] & _ & H)]%rbind_inl; [by apply type_inl in H|done..].
Qed.

Lemma common_inl c e : Channel.common c = inl e -> e = AssertionError.
Proof.
  unfold Channel.common, Channel.static_property.
  intros [H|([] & _ & H)]%rbind_inl; [by apply type_inl in H|..];
    case_bool_decide; res_inv H.
Qed.

Lemma direction_inl c e : Channel.direction c = inl e -> e = AssertionError.
Proof.
  unfold Channel.direction, Channel.static_property.
  intros [H|(b & _ & [H|(a & _ & H)]%rbind_inl)]%rbind_inl;
    [by apply end0_inl in H|by apply start0_inl in H|].
  case_bool_decide; res_inv H.
Qed.

Lemma length_inl c e : Channel.length c = inl e -> e = AssertionError.
Proof.
  unfold Channel.length, Channel.static_property.
  intros [H|(b & _ & [H|(a & _ & H)]%rbind_inl)]%rbind_inl;
    [by apply end0_inl in H|by apply start0_inl in H|done].
Qed.

(** The exceptions of [add_channel]: the type mismatch, a failed assertion,
    or a line that is not in the dict.  In particular the loop of the search
    never runs out of its bound. *)
Lemma add_channel_exn ch g e g' :
  ChannelGrid.add_channel ch g = (inl e, g') ->
  e = TypeError ∨ e = AssertionError ∨ e = KeyError.
Proof.
  intros [_ H]%add_channel_inl. unfold prepare, checked, located in H.
  case_bool_decide; [|res_inv H].
  apply rbind_inl in H as [H|(chv & _ & H)].
  { apply rbind_inl in H as [H|(ty & _ & H)]; [apply type_inl in H; auto|].
    case_bool_decide; [|res_inv H].
    apply rbind_inl in H as [H|(n & _ & H)]; [apply length_inl in H; auto|].
    case_bool_decide; res_inv H. }
  apply rbind_inl in H as [H|(ty' & _ & H)]; [apply type_inl in H; auto|].
  apply rbind_inl in H as [H|(l & _ & H)].
  { destruct ty';
      (apply rbind_inl in H as [H|(c & _ & H)]; [apply common_inl in H; auto|]);
      unfold ChannelGrid.column, ChannelGrid.row in H;
      rewrite collect_getitem in H; case_decide; res_inv H. }
  apply rbind_inl in H as [H|(u & _ & H)].
  { destruct (assert_len_eq_cases l g) as [[E _]|[E _]]; rewrite E in H;
      res_inv H. }
  apply rbind_inl in H as [H|(s & _ & H)]; [apply start0_inl in H; auto|].
  apply rbind_inl in H as [H|(e0 & _ & H)]; [apply end0_inl in H; auto|].
  apply rbind_inl in H as [H|(d & _ & H)]; [apply direction_inl in H; auto|].
  destruct (_ && _); res_inv H.
Qed.

(** ** Lines, spans and covered cells *)

Section geometry.
Implicit Types (T : Channel.Type_) (sz : Size.t) (p q : Pos.t) (c : Channel.t).

Lemma elem_of_line_refs T sz cc p :
  p ∈ line_refs T sz cc
  <-> across T p = cc ∧ (0 ≤ along T p < extent T sz)%Z.
Proof.
  destruct p as [a b]. unfold line_refs.
  destruct T; simpl; rewrite list_elem_of_fmap;
    setoid_rewrite elem_of_seqZ; unfold Pos.x, Pos.y; simpl;
    (split; [intros (z & [= -> ->] & Hz); lia|intros [<- Hz]; eauto]).
Qed.

Lemma length_line_refs T sz cc :
  Z.of_nat (length (line_refs T sz cc)) = Z.max 0 (extent T sz).
Proof.
  unfold line_refs. destruct T; simpl; rewrite length_fmap, length_seqZ; lia.
Qed.

(** Within [0 <= s <= e < len(l)] the slice holds the cells of the line at
    the positions [s] to [e]. *)
Lemma elem_of_slice_line_refs T sz cc (s e : Z) p :
  (0 ≤ s)%Z -> (s ≤ e)%Z -> (e < Z.of_nat (length (line_refs T sz cc)))%Z ->
  p ∈ slice (line_refs T sz cc) s (e + 1)
  <-> across T p = cc ∧ (s ≤ along T p ≤ e)%Z.
Proof.
  intros H0 Hse He. rewrite length_line_refs in He.
  destruct p as [a b]. unfold line_refs.
  destruct T; simpl in *; rewrite elem_of_slice_line by lia;
    unfold Pos.x, Pos.y; simpl;
    (split; [intros (z & Hz & [= -> ->]); lia|intros [<- Hz]; eauto]).
Qed.

Lemma in_grid_line T sz p :
  in_grid sz p -> p ∈ line_refs T sz (across T p).
Proof.
  intros [Hx Hy]. apply elem_of_line_refs. split; [done|].
  by destruct T.
Qed.

(** A segment that lies in a line of orientation [T] covers the cells of
    its span in that line. *)
Lemma covers_line T c p :
  across T (Channel.start c) = across T (Channel.end_ c) ->
  covers c p
  <-> across T p = across T (Channel.start c)
      ∧ (span_start T c ≤ along T p ≤ span_end T c)%Z.
Proof.
  unfold covers, span_start, span_end. destruct T; simpl; intros ->; lia.
Qed.
End geometry.

(** ** The fresh grid *)

Lemma init_lookup sz T p :
  ChannelGrid.cells (ChannelGrid.init sz T) !! p
  = if decide (in_grid sz p) then Some [] else None.
Proof.
  destruct p as [a b]. unfold ChannelGrid.init. simpl.
  assert (Hin : ∀ (x : Z) ys (m : gmap (Z * Z) (list (option Channel.t))),
    foldl (fun m y => <[(x, y) := []]> m) m ys !! (a, b)
    = if decide (a = x ∧ b ∈ ys) then Some [] else m !! (a, b)).
  { intros x ys. induction ys as [|y ys IH]; intros m; cbn [foldl].
    - rewrite decide_False; [done|]. intros [_ H]. by apply elem_of_nil in H.
    - rewrite IH. destruct (decide (a = x ∧ b ∈ ys)) as [[-> H]|H].
      + rewrite decide_True; [done|]. split; [done|by right].
      + rewrite lookup_insert. case_decide as E.
        * injection E as -> ->. rewrite decide_True; [done|]. split; [done|left].
        * rewrite decide_False; [done|]. intros [-> [->|?]%elem_of_cons];
            [by apply E|by apply H]. }
  assert (Hout : ∀ xs ys (m : gmap (Z * Z) (list (option Channel.t))),
    foldl (fun m x => foldl (fun m y => <[(x, y) := []]> m) m ys) m xs !! (a, b)
    = if decide (a ∈ xs ∧ b ∈ ys) then Some [] else m !! (a, b)).
  { intros xs ys. induction xs as [|x xs IH]; intros m; cbn [foldl].
    - rewrite decide_False; [done|]. intros [H _]. by apply elem_of_nil in H.
    - rewrite IH, Hin. destruct (decide (a ∈ xs ∧ b ∈ ys)) as [[H1 H2]|H].
      + rewrite decide_True; [done|]. split; [by right|done].
      + destruct (decide (a = x ∧ b ∈ ys)) as [[-> H2]|H'].
        * rewrite decide_True; [done|]. split; [left|done].
        * rewrite decide_False; [done|]. intros [[->|?]%elem_of_cons ?];
            [by apply H'|by apply H]. }
  rewrite Hout, lookup_empty. unfold in_grid, Pos.x, Pos.y. simpl.
  destruct (decide (a ∈ seqZ 0 (Size.x sz) ∧ b ∈ seqZ 0 (Size.y sz)))
    as [[H1 H2]|H]; rewrite !elem_of_seqZ in *.
  - rewrite decide_True; [done|]. lia.
  - rewrite decide_False; [done|]. lia.
Qed.

(** ** Reachable grids are well formed *)

(** The effect of a successful call on the lengths of the lists and on the
    cells off the line. *)
Lemma add_channel_lengths ch g ch' g' :
  ChannelGrid.add_channel ch g = (inr ch', g') ->
  let T := ChannelGrid.chan_type g in
  let l := line_refs T (ChannelGrid.size g) (across T (Channel.start ch)) in
  ∃ k, Channel.idx ch' = Some (Z.of_nat k)
    ∧ (∀ p, is_Some (ChannelGrid.cells g' !! p)
            <-> is_Some (ChannelGrid.cells g !! p))
    ∧ (∀ p, p ∈ l ->
         length (ChannelGrid.deref g' p)
         = Nat.max (k + 1) (length (ChannelGrid.deref g p)))
    ∧ (∀ p, p ∉ l -> ChannelGrid.cells g' !! p = ChannelGrid.cells g !! p).
Proof.
  intros H T l. apply add_channel_inr in H
    as (k & -> & _ & _ & Hdom & _ & _ & _ & _ & _ & Hcells).
  fold T l in Hdom, Hcells.
  pose proof (slice_subseteq l (span_start T ch) (span_end T ch + 1)) as Hsub.
  exists k. split; [done|]. split; [|split].
  - intros p. rewrite Hcells. repeat case_decide; by rewrite ?fmap_is_Some.
  - intros p Hp. destruct (Hdom p Hp) as [t Ht].
    unfold ChannelGrid.deref. rewrite Hcells, Ht. rewrite (decide_True _ _ Hp).
    case_decide; simpl; by rewrite ?length_insert, pad_length.
  - intros p Hp. rewrite Hcells. rewrite (decide_False _ _ Hp).
    rewrite decide_False; [done|]. intros Hps. by apply Hp, Hsub.
Qed.

Lemma Placed_wf sz T hist g : Placed sz T hist g -> wf sz T g.
Proof.
  induction 1 as [|hist g ch ch' g' _ (HT & Hsz & Hdom & Hrect) Hadd].
  - split; [done|]. split; [done|]. split.
    + intros p. rewrite init_lookup. case_decide; [done|].
      split; [by intros [? ?]|done].
    + intros p q _ _ _. unfold ChannelGrid.deref.
      rewrite !init_lookup. by repeat case_decide.
  - pose proof (add_channel_lengths _ _ _ _ Hadd) as (k & _ & Hsome & Hl & Hn).
    apply add_channel_inr in Hadd as (_ & _ & _ & _ & _ & _ & HT' & Hsz' & _).
    rewrite HT, Hsz in *.
    split; [done|]. split; [done|]. split.
    + intros p. by rewrite Hsome.
    + intros p q Hp Hq Hpq.
      destruct (decide (across T p = across T (Channel.start ch))) as [E|E].
      * pose proof (in_grid_line T sz p Hp) as Hpl.
        pose proof (in_grid_line T sz q Hq) as Hql.
        rewrite <- Hpq in Hql. rewrite E in Hpl, Hql.
        rewrite (Hl p Hpl), (Hl q Hql). f_equal. by apply Hrect.
      * assert (Hnp : ∀ r, across T r = across T p ->
                  r ∉ line_refs T sz (across T (Channel.start ch))).
        { intros r Hr [Hr' _]%elem_of_line_refs. congruence. }
        unfold ChannelGrid.deref. rewrite !Hn by (apply Hnp; congruence).
        by apply Hrect.
Qed.

(** ** The effect of a successful call on a reachable grid *)

Lemma mjoin_pad_lookup n (t : list (option Channel.t)) i :
  mjoin (ChannelGrid.pad n t !! i) = mjoin (t !! i).
Proof.
  apply option_eq. intros c.
  assert (H : ∀ o : option (option Channel.t),
            mjoin o = Some c <-> o = Some (Some c)).
  { intros [[?|]|]; naive_solver. }
  rewrite !H. apply pad_lookup_Some.
Qed.

(** For a segment whose span starts at a non-negative position: the index
    [k] given to it, the lists of the cells of the rectangle after the call,
    what each cell then holds at each index, and why [k] was chosen. *)
Lemma add_channel_summary sz T g ch ch' g' :
  wf sz T g ->
  span_nonneg T ch ->
  ChannelGrid.add_channel ch g = (inr ch', g') ->
  ∃ k : nat,
    ch' = Channel.mk (Channel.start ch) (Channel.end_ ch) (Some (Z.of_nat k))
            (Channel.id_override ch) None
    ∧ across T (Channel.start ch) = across T (Channel.end_ ch)
    ∧ (∀ p, in_grid sz p ->
         ChannelGrid.deref g' p
         = if decide (covers ch p)
           then <[k := Some ch']> (ChannelGrid.pad (k + 1) (ChannelGrid.deref g p))
           else if decide (across T p = across T (Channel.start ch))
           then ChannelGrid.pad (k + 1) (ChannelGrid.deref g p)
           else ChannelGrid.deref g p)
    ∧ (∀ p i, in_grid sz p ->
         track g' p i
         = if decide (covers ch p ∧ i = k) then Some ch' else track g p i)
    ∧ (∀ p, covers ch p -> in_grid sz p ∧ track g p k = None)
    ∧ (∀ j, j < k -> ∃ p, in_grid sz p ∧ covers ch p ∧ is_Some (track g p j)).
Proof.
  intros (HT & Hsz & Hdom & _) Hnn Hadd.
  apply add_channel_inr in Hadd
    as (k & Hch' & _ & Hacr & Hldom & Hlt & _ & _ & Hfree & Hocc & Hcells).
  rewrite HT, Hsz in *.
  set (l := line_refs T sz (across T (Channel.start ch))) in *.
  set (ps := slice l (span_start T ch) (span_end T ch + 1)) in *.
  assert (Hps : ∀ p, p ∈ ps <-> covers ch p).
  { intros p. unfold ps, l. rewrite elem_of_slice_line_refs; [|done| |done].
    - by rewrite covers_line.
    - unfold span_start, span_end. lia. }
  assert (Hl : ∀ p, in_grid sz p ->
            p ∈ l <-> across T p = across T (Channel.start ch)).
  { intros p Hp. unfold l. rewrite elem_of_line_refs. split; [by intros [? _]|].
    intros E. split; [done|]. destruct Hp. by destruct T. }
  assert (Hin : ∀ p, covers ch p -> in_grid sz p).
  { intros p Hp. apply Hdom, Hldom. eapply slice_subseteq. by apply Hps. }
  assert (Hderef : ∀ p, in_grid sz p ->
            ChannelGrid.deref g' p
            = if decide (covers ch p)
              then <[k := Some ch']>
                     (ChannelGrid.pad (k + 1) (ChannelGrid.deref g p))
              else if decide (across T p = across T (Channel.start ch))
              then ChannelGrid.pad (k + 1) (ChannelGrid.deref g p)
              else ChannelGrid.deref g p).
  { intros p Hp. destruct (proj2 (Hdom p) Hp) as [t Ht].
    unfold ChannelGrid.deref. rewrite Hcells, Ht. simpl.
    destruct (decide (covers ch p)) as [Hc|Hc].
    - rewrite decide_True by by apply Hps. by rewrite Hch'.
    - rewrite decide_False by by rewrite Hps.
      destruct (decide (across T p = _)) as [E|E].
      + rewrite decide_True by by apply Hl. done.
      + rewrite decide_False by by rewrite Hl. done. }
  exists k. split; [done|]. split; [done|]. split; [done|]. split; [|split].
  - intros p i Hp. unfold track. rewrite (Hderef p Hp).
    destruct (decide (covers ch p)) as [Hc|Hc].
    + destruct (decide (i = k)) as [->|Hne].
      * rewrite decide_True by done.
        rewrite list_lookup_insert_eq; [done|]. rewrite pad_length. lia.
      * rewrite decide_False by by intros [_ ?].
        rewrite list_lookup_insert_ne by done. apply mjoin_pad_lookup.
    + rewrite (decide_False (P := covers ch p ∧ i = k)) by by intros [? _].
      case_decide; [apply mjoin_pad_lookup|done].
  - intros p Hp. split; [by apply Hin|]. by apply Hfree, Hps.
  - intros j Hj. destruct (Hocc j Hj) as (p & Hp & Ho). exists p.
    apply Hps in Hp. split; [by apply Hin|done].
Qed.

(** ** The lists and the placed segments agree *)

Lemma covers_mk c i o a p :
  covers (Channel.mk (Channel.start c) (Channel.end_ c) i o a) p <-> covers c p.
Proof. done. Qed.

Lemma Placed_consistent sz T hist g :
  Placed sz T hist g ->
  Forall (span_nonneg T) hist ->
  consistent sz hist g ∧ no_collision sz hist.
Proof.
  induction 1 as [|hist g ch ch' g' HP IH Hadd]; intros Hnn.
  - split; [split|].
    + intros p i c _ Htr. unfold track, ChannelGrid.deref in Htr.
      rewrite init_lookup in Htr. by case_decide.
    + intros c p Hc. by apply elem_of_nil in Hc.
    + intros i j c1 c2 p _ Hi. by rewrite lookup_nil in Hi.
  - apply Forall_cons in Hnn as [Hnn' Hnn].
    destruct (IH Hnn) as [[Hto Hfrom] Hnc]. clear IH.
    pose proof (Placed_wf _ _ _ _ HP) as Hwf.
    assert (Hch : span_nonneg T ch).
    { apply add_channel_inr in Hadd as (k & -> & _). exact Hnn'. }
    destruct (add_channel_summary _ _ _ _ _ _ Hwf Hch Hadd)
      as (k & Hch' & _ & _ & Htrack & Hfree & _).
    assert (Hcov : ∀ p, covers ch' p <-> covers ch p) by by rewrite Hch'.
    assert (Hidx : Channel.idx ch' = Some (Z.of_nat k)) by by rewrite Hch'.
    assert (Hold : ∀ c p, c ∈ hist -> in_grid sz p -> covers c p ->
              covers ch p -> Channel.idx c ≠ Some (Z.of_nat k)).
    { intros c p Hc Hp Hcp Hchp Hk.
      destruct (Hfrom c p Hc Hp Hcp) as (i & Hi & Htr).
      rewrite Hk in Hi. injection Hi as Hi. apply Nat2Z.inj in Hi. subst i.
      destruct (Hfree p Hchp) as [_ Hnone]. congruence. }
    split; [split|].
    + intros p i c Hp Htr. rewrite (Htrack p i Hp) in Htr.
      case_decide as Hd.
      * destruct Hd as [Hc ->]. injection Htr as <-.
        split; [left|]. split; [done|]. by apply Hcov.
      * destruct (Hto p i c Hp Htr) as (Hin & Hi & Hc).
        split; [by right|done].
    + intros c p [->|Hc]%elem_of_cons Hp Hcp.
      * exists k. split; [done|]. rewrite (Htrack p k Hp).
        rewrite decide_True; [done|]. split; [by apply Hcov|done].
      * destruct (Hfrom c p Hc Hp Hcp) as (i & Hi & Htr).
        exists i. split; [done|]. rewrite (Htrack p i Hp).
        rewrite decide_False; [done|]. intros [Hchp ->].
        by apply (Hold c p).
    + intros [|i] [|j] c1 c2 p Hij H1 H2 Hp Hc1 Hc2; simpl in H1, H2.
      * done.
      * injection H1 as <-. rewrite Hidx. intros E.
        apply (Hold c2 p); [by eapply list_elem_of_lookup_2|done..| |done].
        by apply Hcov.
      * injection H2 as <-. rewrite Hidx.
        apply (Hold c1 p); [by eapply list_elem_of_lookup_2|done..|].
        by apply Hcov.
      * apply (Hnc i j c1 c2 p); [congruence|done..].
Qed.

(** ** The derived attributes, given the orientation *)

Section accessors.
Implicit Types (c : Channel.t) (T : Channel.Type_).

Lemma start0_of_type c T :
  Channel.type c = inr T -> Channel.start0 c = inr (along T (Channel.start c)).
Proof.
  intros H. unfold Channel.start0, Channel.static_property. rewrite H.
  by destruct T.
Qed.

Lemma end0_of_type c T :
  Channel.type c = inr T -> Channel.end0 c = inr (along T (Channel.end_ c)).
Proof.
  intros H. unfold Channel.end0, Channel.static_property. rewrite H.
  by destruct T.
Qed.

Lemma common_of_type c T :
  Channel.type c = inr T ->
  across T (Channel.start c) = across T (Channel.end_ c) ->
  Channel.common c = inr (across T (Channel.start c)).
Proof.
  intros H Hacr. unfold Channel.common, Channel.static_property. rewrite H.
  destruct T; simpl in *; by rewrite bool_decide_eq_true_2.
Qed.

Lemma direction_of_type c T :
  Channel.type c = inr T ->
  Channel.direction c
  = inr (if bool_decide (along T (Channel.end_ c) < along T (Channel.start c))%Z
         then Channel.DEC else Channel.INC).
Proof.
  intros H. unfold Channel.direction, Channel.static_property.
  rewrite (start0_of_type c T H), (end0_of_type c T H). simpl.
  by case_bool_decide.
Qed.

Lemma length_of_type c T :
  Channel.type c = inr T ->
  Channel.length c
  = inr (Z.abs (along T (Channel.end_ c) - along T (Channel.start c))).
Proof.
  intros H. unfold Channel.length, Channel.static_property.
  by rewrite (start0_of_type c T H), (end0_of_type c T H).
Qed.
End accessors.

(** ** When a call succeeds *)




Lemma checked_ok T g ch :
  ChannelGrid.chan_type g = T ->
  Channel.type_attr ch = None ->
  across T (Channel.start ch) = across T (Channel.end_ ch) ->
  ∃ chv, checked ch g = inr chv
    ∧ Channel.type chv = inr T
    ∧ Channel.start chv = Channel.start ch
    ∧ Channel.end_ chv = Channel.end_ ch.
Proof.
  intros HT Hattr Hacr. unfold checked. rewrite HT.
  assert (Hty : Channel.type ch
                = inr (if bool_decide (Pos.x (Channel.start ch)
                                       = Pos.x (Channel.end_ ch))
                       then Channel.X else Channel.Y)).
  { unfold Channel.type, Channel.static_property. rewrite Hattr.
    case_bool_decide as E; [done|]. rewrite bool_decide_eq_true_2; [done|].
    destruct T; simpl in Hacr; done. }
  destruct (bool_decide (Pos.x (Channel.start ch) = Pos.x (Channel.end_ ch)))
    eqn:E; rewrite Hty; cbn [rbind]; destruct T; simpl in Hacr.
  - exists ch. by rewrite bool_decide_eq_false_2 by by intros [].
  - rewrite bool_decide_eq_true_2 by done.
    rewrite (length_of_type ch Channel.X Hty). cbn [rbind]. simpl.
    rewrite Hacr, Z.sub_diag. simpl.
    exists (Channel.set_type ch Channel.Y). done.
  - apply bool_decide_eq_false in E. done.
  - exists ch. by rewrite bool_decide_eq_false_2 by by intros [].
Qed.


(** What a list of a reachable grid holds has been placed. *)
Lemma Placed_track_hist sz T hist g p i c :
  Placed sz T hist g -> track g p i = Some c -> c ∈ hist.
Proof.
  intros HP. revert p i c.
  induction HP as [|hist g ch ch' g' HP IH Hadd]; intros p i c Htr.
  - unfold track, ChannelGrid.deref in Htr. rewrite init_lookup in Htr.
    by case_decide.
  - apply add_channel_inr in Hadd
      as (k & Hch' & _ & _ & _ & _ & _ & _ & _ & _ & Hcells).
    apply track_Some in Htr. unfold ChannelGrid.deref in Htr.
    rewrite Hcells in Htr.
    assert (Hold : ∀ n, ChannelGrid.pad n (ChannelGrid.deref g p) !! i
                        = Some (Some c) -> c ∈ ch' :: hist).
    { intros n E. right. apply (IH p i). apply pad_lookup_Some in E.
      by apply track_Some. }
    unfold ChannelGrid.deref in Hold.
    destruct (ChannelGrid.cells g !! p) as [t|] eqn:Et; simpl in *.
    + repeat case_decide; simpl in Htr.
      * destruct (decide (i = k)) as [->|Hne].
        -- apply list_lookup_insert_Some in Htr as [(_ & E & _)|[? E]];
             [|done]. injection E as <-. rewrite Hch'. left.
        -- rewrite list_lookup_insert_ne in Htr by done. by eapply Hold.
      * by eapply Hold.
      * apply (Hold 0). by rewrite pad_0.
    + by repeat case_decide.
Qed.

(** * The segment class *)

(** C6. Constructing a segment raises [ChannelNotStraight] exactly when the
    two ends share neither coordinate (first part); it succeeds, giving the
    segment with the ends, the index and the label it was called with,
    exactly when they share one (second part). *)
Theorem new_not_straight_iff (a b : Pos.t) (i : option Z) (o : option string) :
  (Channel.new a b i o = inl ChannelNotStraight
   <-> Pos.x a ≠ Pos.x b ∧ Pos.y a ≠ Pos.y b)
  ∧ (Channel.new a b i o = inr (Channel.mk a b i o None)
     <-> Pos.x a = Pos.x b ∨ Pos.y a = Pos.y b).
Proof.
  unfold Channel.new, throw, ok.
  repeat case_bool_decide; simpl; intuition congruence.
Qed.

(** C8. For a segment that [__new__] has built, the derived attributes are
    the closed forms of section 3: the orientation is Column ([X]) when the
    ends have the same x and Row ([Y]) otherwise, so a segment of one point
    is a Column; the common coordinate is the one across that orientation,
    which the two ends share; [start0] and [end0] are the coordinates of the
    ends along it; the direction is [DEC] exactly when [end0 < start0]; the
    length is the absolute difference of the two. *)
Theorem accessors_closed_form (a b : Pos.t) (i : option Z) (o : option string)
    (c : Channel.t) :
  Channel.new a b i o = inr c ->
  let T := if decide (Pos.x a = Pos.x b) then Channel.X else Channel.Y in
  Channel.type c = inr T
  ∧ Channel.common c = inr (across T a)
  ∧ across T a = across T b
  ∧ Channel.start0 c = inr (along T a)
  ∧ Channel.end0 c = inr (along T b)
  ∧ Channel.direction c
    = inr (if decide (along T b < along T a)%Z then Channel.DEC
           else Channel.INC)
  ∧ Channel.length c = inr (Z.abs (along T b - along T a))
  ∧ (a = b -> T = Channel.X).
Proof.
  intros Hnew T.
  assert (Hstr : Pos.x a = Pos.x b ∨ Pos.y a = Pos.y b).
  { destruct (decide (Pos.x a = Pos.x b)); [by left|].
    destruct (decide (Pos.y a = Pos.y b)); [by right|].
    unfold Channel.new in Hnew. by rewrite !bool_decide_eq_true_2 in Hnew. }
  rewrite new_straight in Hnew by done. injection Hnew as <-.
  assert (HT : Channel.type (Channel.mk a b i o None) = inr T).
  { unfold Channel.type, Channel.static_property, T. simpl.
    destruct (decide (Pos.x a = Pos.x b)).
    - by rewrite bool_decide_eq_true_2.
    - rewrite bool_decide_eq_false_2 by done.
      rewrite bool_decide_eq_true_2; [done|]. by destruct Hstr. }
  assert (Hacr : across T a = across T b).
  { unfold T. destruct (decide (Pos.x a = Pos.x b)); [done|]. by destruct Hstr. }
  split; [done|]. split; [exact (common_of_type _ T HT Hacr)|]. split; [done|].
  split; [exact (start0_of_type _ T HT)|]. split; [exact (end0_of_type _ T HT)|].
  split; [|split].
  - rewrite (direction_of_type _ T HT). simpl.
    destruct (decide (along T b < along T a)%Z).
    + by rewrite bool_decide_eq_true_2.
    + by rewrite bool_decide_eq_false_2.
  - exact (length_of_type _ T HT).
  - intros ->. unfold T. by rewrite decide_True.
Qed.

(** The docstring rows of the attributes: [Channel((10, 0), (0, 0))]. *)
Lemma accessors_closed_form_witness :
  Channel.new (10, 0)%Z (0, 0)%Z None None
  = inr (Channel.mk (10, 0)%Z (0, 0)%Z None None None)
  ∧ Channel.type (Channel.mk (10, 0)%Z (0, 0)%Z None None None) = inr Channel.Y
  ∧ Channel.direction (Channel.mk (10, 0)%Z (0, 0)%Z None None None)
    = inr Channel.DEC
  ∧ Channel.length (Channel.mk (10, 0)%Z (0, 0)%Z None None None) = inr 10%Z.
Proof.
  split; [reflexivity|].
  pose proof (accessors_closed_form (10, 0)%Z (0, 0)%Z None None _ eq_refl)
    as (H1 & _ & _ & _ & _ & H2 & H3 & _).
  split; [exact H1|]. split; [exact H2|exact H3].
Defined.

(** C9. [update_idx] is a functional update: on a segment (a straight one,
    as every instance is) it returns a new segment with the same ends and
    label and the index it was given, and it leaves the segment it was
    called on as it was, its index included. *)
Theorem update_idx_pure (c : Channel.t) (i : option Z) :
  straight c ->
  Channel.update_idx i c
  = (inr (Channel.mk (Channel.start c) (Channel.end_ c) i
            (Channel.id_override c) None), c).
Proof.
  intros H. unfold Channel.update_idx, bind, get, lift.
  by rewrite new_straight.
Qed.

(** The docstring of [update_idx]: [c1 = Channel((1, 4), (1, 8), 0)] and
    [c2 = c1.update_idx(2)]. *)
Lemma update_idx_pure_witness :
  straight (Channel.mk (1, 4)%Z (1, 8)%Z (Some 0%Z) None None)
  ∧ Channel.update_idx (Some 2%Z)
      (Channel.mk (1, 4)%Z (1, 8)%Z (Some 0%Z) None None)
    = (inr (Channel.mk (1, 4)%Z (1, 8)%Z (Some 2%Z) None None),
       Channel.mk (1, 4)%Z (1, 8)%Z (Some 0%Z) None None).
Proof.
  split; [by left|].
  apply (update_idx_pure (Channel.mk (1, 4)%Z (1, 8)%Z (Some 0%Z) None None)).
  by left.
Defined.

(** * The packing engine *)

(** C7. The worked example: on the fresh 10 x 10 Row grid of the docstring
    the seven segments, placed in this order, get the indices 0, 0, 1, 0, 2,
    1 and 3, and the cells end up as the docstring shows them. *)
Theorem doc_scenario :
  let run := add_channels
               [doc_A; doc_B; doc_C; doc_D; doc_E; doc_F; doc_G] doc_grid in
  run.1 = inr [indexed doc_A 0; indexed doc_B 0; indexed doc_C 1;
               indexed doc_D 0; indexed doc_E 2; indexed doc_F 1;
               indexed doc_G 3]
  ∧ ChannelGrid.deref run.2 (0, 5)%Z
    = [Some (indexed doc_A 0); Some (indexed doc_F 1); None;
       Some (indexed doc_G 3)]
  ∧ ChannelGrid.deref run.2 (3, 5)%Z
    = [Some (indexed doc_A 0); None; Some (indexed doc_E 2);
       Some (indexed doc_G 3)]
  ∧ ChannelGrid.deref run.2 (6, 5)%Z
    = [Some (indexed doc_B 0); Some (indexed doc_C 1); None;
       Some (indexed doc_G 3)]
  ∧ ChannelGrid.deref run.2 (7, 5)%Z = [None; None; None; None]
  ∧ ChannelGrid.deref run.2 (4, 6)%Z = [Some (indexed doc_D 0)].
Proof. vm_compute. repeat split. Qed.

(** The example at the end of the module: the indices are 0, 1, 2 and 2 in
    row 0 (the segment of one point [DD] is accepted and fits above [BB] in
    cell 0) and 0, 0 and 1 in row 1. *)
Example main_block :
  let run := add_channels main_segments main_grid in
  (cs <- run.1 ;; ok (Channel.idx <$> cs))%res
  = inr [Some 0; Some 1; Some 2; Some 2; Some 0; Some 0; Some 1]%Z
  ∧ ChannelGrid.deref run.2 (0, 0)%Z
    = [Some (indexed (doc_segment (0, 0)%Z (4, 0)%Z "AA") 0);
       Some (indexed (doc_segment (0, 0)%Z (2, 0)%Z "BB") 1);
       Some (indexed (doc_segment (0, 0)%Z (0, 0)%Z "DD") 2)].
Proof. vm_compute. split; reflexivity. Qed.

(** The same call on a grid of one row only, which has no row 5: the lookup
    of the line fails. *)
Remark doc_scenario_one_row :
  ChannelGrid.add_channel doc_A (ChannelGrid.init (10, 1)%Z Channel.Y)
  = (inl KeyError, ChannelGrid.init (10, 1)%Z Channel.Y).
Proof. vm_compute. reflexivity. Qed.

(** The first two calls of the example. *)
Lemma doc_step_A :
  ChannelGrid.add_channel doc_A doc_grid = (inr (indexed doc_A 0), doc_grid_A).
Proof. vm_compute. reflexivity. Qed.

Lemma doc_step_B :
  ChannelGrid.add_channel doc_B doc_grid_A
  = (inr (indexed doc_B 0), doc_grid_AB).
Proof. vm_compute. reflexivity. Qed.

Lemma doc_Placed_A : Placed (10, 10)%Z Channel.Y [indexed doc_A 0] doc_grid_A.
Proof. eapply Placed_step; [apply Placed_init|apply doc_step_A]. Qed.

Lemma doc_Placed_AB :
  Placed (10, 10)%Z Channel.Y [indexed doc_B 0; indexed doc_A 0] doc_grid_AB.
Proof. eapply Placed_step; [apply doc_Placed_A|apply doc_step_B]. Qed.

Lemma doc_step_C :
  ChannelGrid.add_channel doc_C doc_grid_AB
  = (inr (indexed doc_C 1), doc_grid_ABC).
Proof. vm_compute. reflexivity. Qed.

Lemma doc_Placed_ABC :
  Placed (10, 10)%Z Channel.Y
    [indexed doc_C 1; indexed doc_B 0; indexed doc_A 0] doc_grid_ABC.
Proof. eapply Placed_step; [apply doc_Placed_AB|apply doc_step_C]. Qed.

Lemma doc_step_N :
  ChannelGrid.add_channel doc_N doc_grid_A = (inr (indexed doc_N 0), doc_grid_A).
Proof. vm_compute. reflexivity. Qed.

(** C1 is broken by a segment whose range starts before the line.
    [add_channel] asserts [e >= s], [s < len(l)] and [e < len(l)], but not
    [0 <= s].  For [N], from (-1, 5) to (2, 5), the three assertions hold and
    the slice [l[-1:3]] of the ten cells of row 5 is empty, so the search
    ends at once: in the reachable grid that holds [A], the call succeeds
    and returns [N] with index 0, an index that [A] occupies in a cell [N]
    covers. *)
Theorem negative_start_index_taken :
  Placed (10, 10)%Z Channel.Y [indexed doc_A 0] doc_grid_A
  ∧ ChannelGrid.add_channel doc_N doc_grid_A
    = (inr (indexed doc_N 0), doc_grid_A)
  ∧ covers (indexed doc_N 0) (0, 5)%Z
  ∧ track doc_grid_A (0, 5)%Z 0 = Some (indexed doc_A 0)
  ∧ ¬ index_free [indexed doc_A 0] doc_grid_A (indexed doc_N 0) 0.
Proof.
  assert (Hcov : covers (indexed doc_N 0) (0, 5)%Z).
  { unfold covers, Pos.x, Pos.y. simpl. lia. }
  assert (Htr : track doc_grid_A (0, 5)%Z 0 = Some (indexed doc_A 0)).
  { vm_compute. reflexivity. }
  split; [apply doc_Placed_A|]. split; [apply doc_step_N|].
  split; [exact Hcov|]. split; [exact Htr|].
  intros Hfree. apply (Hfree (0, 5)%Z (indexed doc_A 0) Hcov); [|exact Htr].
  by left.
Qed.

(** X19. Minimality under the precondition [0 <= s].  In a reachable grid,
    a successful call for a segment whose range starts at a non-negative
    position gives it an index that is free, that is, that no segment placed
    before occupies in a cell the new segment covers, and no smaller index
    is free. *)
Theorem add_channel_index_minimal sz T hist g ch ch' g' :
  Placed sz T hist g ->
  span_nonneg T ch ->
  ChannelGrid.add_channel ch g = (inr ch', g') ->
  ∃ k : nat,
    Channel.idx ch' = Some (Z.of_nat k)
    ∧ index_free hist g ch' k
    ∧ ∀ i, index_free hist g ch' i -> k ≤ i.
Proof.
  intros HP Hnn Hadd.
  destruct (add_channel_summary _ _ _ _ _ _ (Placed_wf _ _ _ _ HP) Hnn Hadd)
    as (k & Hch' & _ & _ & _ & Hfree & Hocc).
  assert (Hcov : ∀ p, covers ch' p <-> covers ch p) by by rewrite Hch'.
  exists k. split; [by rewrite Hch'|]. split.
  - intros p c Hp _. apply Hcov in Hp. destruct (Hfree p Hp) as [_ ->]. done.
  - intros i Hi. destruct (decide (k ≤ i)) as [|Hlt]; [done|].
    destruct (Hocc i) as (p & _ & Hp & [c Hc]); [lia|].
    destruct (Hi p c); [by apply Hcov| |done].
    by apply (Placed_track_hist sz T hist g p i).
Qed.

(** The third call of the example: [C] lies over [B], which holds index 0,
    and gets index 1. *)
Lemma add_channel_index_minimal_witness :
  ∃ k : nat,
    Channel.idx (indexed doc_C 1) = Some (Z.of_nat k)
    ∧ index_free [indexed doc_B 0; indexed doc_A 0] doc_grid_AB
        (indexed doc_C 1) k
    ∧ ∀ i, index_free [indexed doc_B 0; indexed doc_A 0] doc_grid_AB
             (indexed doc_C 1) i
           -> k ≤ i.
Proof.
  apply (add_channel_index_minimal (10, 10)%Z Channel.Y
           [indexed doc_B 0; indexed doc_A 0]
           doc_grid_AB doc_C (indexed doc_C 1) doc_grid_ABC).
  - apply doc_Placed_AB.
  - unfold span_nonneg. vm_compute. discriminate.
  - apply doc_step_C.
Defined.

(** C2 is broken by the same segment.  After the calls for [A] and for [N]
    both are placed with index 0, and both cover the cells 0 to 2 of row 5:
    the call for [N] neither fails on the range that starts at -1 nor looks
    at a cell. *)
Theorem negative_start_collision :
  Placed (10, 10)%Z Channel.Y [indexed doc_N 0; indexed doc_A 0] doc_grid_A
  ∧ in_grid (10, 10)%Z (0, 5)%Z
  ∧ covers (indexed doc_N 0) (0, 5)%Z
  ∧ covers (indexed doc_A 0) (0, 5)%Z
  ∧ Channel.idx (indexed doc_N 0) = Channel.idx (indexed doc_A 0)
  ∧ ¬ no_collision (10, 10)%Z [indexed doc_N 0; indexed doc_A 0].
Proof.
  assert (Hin : in_grid (10, 10)%Z (0, 5)%Z).
  { unfold in_grid, Pos.x, Pos.y, Size.x, Size.y. simpl. lia. }
  assert (HcN : covers (indexed doc_N 0) (0, 5)%Z).
  { unfold covers, Pos.x, Pos.y. simpl. lia. }
  assert (HcA : covers (indexed doc_A 0) (0, 5)%Z).
  { unfold covers, Pos.x, Pos.y. simpl. lia. }
  split; [eapply Placed_step; [apply doc_Placed_A|apply doc_step_N]|].
  split; [exact Hin|]. split; [exact HcN|]. split; [exact HcA|].
  split; [reflexivity|].
  intros Hno.
  apply (Hno 0 1 (indexed doc_N 0) (indexed doc_A 0) (0, 5)%Z);
    [lia|reflexivity|reflexivity|exact Hin|exact HcN|exact HcA|reflexivity].
Qed.

(** X20. No collision under the precondition [0 <= s].  After any sequence
    of successful calls for segments whose ranges start at non-negative
    positions, two segments placed by different calls never have the same
    index when there is a cell of the grid that both cover. *)
Theorem placed_no_collision sz T hist g :
  Placed sz T hist g ->
  Forall (span_nonneg T) hist ->
  no_collision sz hist.
Proof. intros HP Hnn. by destruct (Placed_consistent sz T hist g HP Hnn). Qed.

(** The example after three calls: [B] and [C] cover the same cells and
    hold the indices 0 and 1. *)
Lemma placed_no_collision_witness :
  no_collision (10, 10)%Z [indexed doc_C 1; indexed doc_B 0; indexed doc_A 0].
Proof.
  apply (placed_no_collision (10, 10)%Z Channel.Y
           [indexed doc_C 1; indexed doc_B 0; indexed doc_A 0] doc_grid_ABC).
  - apply doc_Placed_ABC.
  - repeat constructor; unfold span_nonneg; vm_compute; discriminate.
Defined.

(** C3, as stated, fails: after the first call of the example the cells of
    row 5 have one entry and those of the other rows have none. *)
Lemma grid_rectangular_counterexample :
  Placed (10, 10)%Z Channel.Y [indexed doc_A 0] doc_grid_A
  ∧ ¬ grid_rectangular (10, 10)%Z doc_grid_A.
Proof.
  split; [apply doc_Placed_A|].
  assert (Hin : ∀ b, (0 ≤ b < 10)%Z -> in_grid (10, 10)%Z (0, b)%Z).
  { intros b Hb. unfold in_grid, Pos.x, Pos.y, Size.x, Size.y. simpl. lia. }
  intros H. specialize (H (0, 5)%Z (0, 0)%Z (Hin 5%Z ltac:(lia))
                          (Hin 0%Z ltac:(lia))).
  vm_compute in H. discriminate H.
Qed.

(** C3, amended.  After any sequence of successful calls the lists of the
    cells of one line (a row of a Row grid, a column of a Column grid) have
    one length. *)
Theorem placed_lines_rectangular sz T hist g :
  Placed sz T hist g -> lines_rectangular sz T g.
Proof. intros HP. by destruct (Placed_wf sz T hist g HP) as (_ & _ & _ & ?). Qed.

Lemma placed_lines_rectangular_witness :
  lines_rectangular (10, 10)%Z Channel.Y doc_grid_AB.
Proof.
  apply (placed_lines_rectangular (10, 10)%Z Channel.Y
           [indexed doc_B 0; indexed doc_A 0] doc_grid_AB).
  apply doc_Placed_AB.
Defined.

(** C4, as stated, fails: the second call of the example places [B] in the
    cells 4 to 6 of row 5 at index 0, and cell 3 of that row, outside the
    range, holds [A] at index 0, not [None]. *)
Lemma post_as_stated_counterexample :
  ChannelGrid.add_channel doc_B doc_grid_A
  = (inr (indexed doc_B 0), doc_grid_AB)
  ∧ ¬ post_as_stated (10, 10)%Z Channel.Y doc_B (indexed doc_B 0) doc_grid_AB.
Proof.
  split; [apply doc_step_B|].
  assert (Hin : in_grid (10, 10)%Z (3, 5)%Z).
  { unfold in_grid, Pos.x, Pos.y, Size.x, Size.y. simpl. lia. }
  assert (Hout : ¬ covers doc_B (3, 5)%Z).
  { unfold covers, Pos.x, Pos.y. simpl. lia. }
  intros (k & Hk & _ & _ & H).
  injection Hk as Hk. assert (k = 0) as -> by lia.
  specialize (H (3, 5)%Z Hin eq_refl Hout).
  vm_compute in H. discriminate H.
Qed.

(** C4, amended.  A successful call in a reachable grid, for a segment whose
    range starts at a non-negative position, returns the segment with the
    accepted index [k] and leaves each cell of the rectangle as follows: a
    cell the segment covers has its list padded with [None] to [k + 1]
    entries and then holds the returned segment at position [k]; any other
    cell of the line is padded only, so that position [k] there holds what
    it held before, and [None] when the padding made it; a cell off the
    line has its list unchanged. *)
Theorem add_channel_post sz T hist g ch ch' g' :
  Placed sz T hist g ->
  span_nonneg T ch ->
  ChannelGrid.add_channel ch g = (inr ch', g') ->
  ∃ k : nat,
    ch' = indexed ch (Z.of_nat k)
    ∧ ∀ p, in_grid sz p ->
        ChannelGrid.deref g' p
        = if decide (covers ch p)
          then <[k := Some ch']> (ChannelGrid.pad (k + 1) (ChannelGrid.deref g p))
          else if decide (across T p = across T (Channel.start ch))
          then ChannelGrid.pad (k + 1) (ChannelGrid.deref g p)
          else ChannelGrid.deref g p.
Proof.
  intros HP Hnn Hadd.
  destruct (add_channel_summary _ _ _ _ _ _ (Placed_wf _ _ _ _ HP) Hnn Hadd)
    as (k & Hch' & _ & Hderef & _).
  exists k. by split.
Qed.

Lemma add_channel_post_witness :
  ∃ k : nat,
    indexed doc_B 0 = indexed doc_B (Z.of_nat k)
    ∧ ∀ p, in_grid (10, 10)%Z p ->
        ChannelGrid.deref doc_grid_AB p
        = if decide (covers doc_B p)
          then <[k := Some (indexed doc_B 0)]>
                 (ChannelGrid.pad (k + 1) (ChannelGrid.deref doc_grid_A p))
          else if decide (across Channel.Y p = across Channel.Y (Channel.start doc_B))
          then ChannelGrid.pad (k + 1) (ChannelGrid.deref doc_grid_A p)
          else ChannelGrid.deref doc_grid_A p.
Proof.
  apply (add_channel_post (10, 10)%Z Channel.Y [indexed doc_A 0]
           doc_grid_A doc_B (indexed doc_B 0) doc_grid_AB).
  - apply doc_Placed_A.
  - unfold span_nonneg. vm_compute. discriminate.
  - apply doc_step_B.
Defined.



(** C10. The frame.  A call for a segment of the grid's orientation changes
    lists of the line at the segment's common coordinate only: the list of
    every cell off that line is as before, and so are the attributes of the
    grid, whatever the outcome of the call. *)
Theorem add_channel_frame g ch cc r g' :
  Channel.type ch = inr (ChannelGrid.chan_type g) ->
  Channel.common ch = inr cc ->
  ChannelGrid.add_channel ch g = (r, g') ->
  ChannelGrid.chan_type g' = ChannelGrid.chan_type g
  ∧ ChannelGrid.size g' = ChannelGrid.size g
  ∧ ∀ p, across (ChannelGrid.chan_type g) p ≠ cc ->
      ChannelGrid.cells g' !! p = ChannelGrid.cells g !! p.
Proof.
  intros Hty Hcom Hadd. destruct r as [e|ch'].
  - apply add_channel_inl in Hadd as [-> _]. done.
  - pose proof (add_channel_lengths _ _ _ _ Hadd) as (k & _ & _ & _ & Hoff).
    apply add_channel_inr in Hadd
      as (_ & _ & _ & Hacr & _ & _ & HT & Hsz & _).
    split; [done|]. split; [done|]. intros p Hp. apply Hoff.
    intros [E _]%elem_of_line_refs.
    rewrite (common_of_type ch _ Hty Hacr) in Hcom. injection Hcom as <-.
    done.
Qed.

Lemma add_channel_frame_witness :
  ChannelGrid.chan_type doc_grid_AB = ChannelGrid.chan_type doc_grid_A
  ∧ ChannelGrid.size doc_grid_AB = ChannelGrid.size doc_grid_A
  ∧ ∀ p, across (ChannelGrid.chan_type doc_grid_A) p ≠ 5%Z ->
      ChannelGrid.cells doc_grid_AB !! p = ChannelGrid.cells doc_grid_A !! p.
Proof.
  apply (add_channel_frame doc_grid_A doc_B 5%Z (inr (indexed doc_B 0))
           doc_grid_AB).
  - reflexivity.
  - reflexivity.
  - apply doc_step_B.
Defined.

(** [add_channel] does not check the precondition [0 <= s] that the
    theorems above assume.  For a range that starts at a negative position
    the slice [l[s:e+1]] counts from the end of the line; for the segment
    from (-1, 5) to (2, 5) it is empty, so the search accepts index 0 at
    once, although [A] holds index 0 in the cells 0 to 2, and the segment
    is written to no cell. *)
Remark negative_start_unchecked :
  let ch := doc_segment (-1, 5)%Z (2, 5)%Z "N" in
  ChannelGrid.add_channel ch doc_grid_A = (inr (indexed ch 0), doc_grid_A)
  ∧ track doc_grid_A (0, 5)%Z 0 = Some (indexed doc_A 0).
Proof. vm_compute. split; reflexivity. Qed.


(** * Further properties *)

(** ** Which calls succeed *)

Lemma checked_reject T g ch :
  ChannelGrid.chan_type g = T ->
  Channel.type_attr ch = None ->
  straight ch ->
  across T (Channel.start ch) ≠ across T (Channel.end_ ch) ->
  checked ch g = inl TypeError.
Proof.
  intros HT Hattr Hstr Hacr. unfold checked. rewrite HT.
  assert (Hty : Channel.type ch
                = inr (match T with
                       | Channel.X => Channel.Y
                       | Channel.Y => Channel.X
                       end)).
  { unfold Channel.type, Channel.static_property. rewrite Hattr.
    destruct T; simpl in Hacr.
    - rewrite bool_decide_eq_false_2 by done.
      rewrite bool_decide_eq_true_2; [done|]. by destruct Hstr.
    - rewrite bool_decide_eq_true_2; [done|]. by destruct Hstr. }
  rewrite Hty. cbn [rbind]. rewrite (length_of_type ch _ Hty). cbn [rbind].
  destruct T; simpl in *;
    rewrite !bool_decide_eq_true_2 by first [discriminate | lia]; done.
Qed.

Lemma line_exists_Forall sz T g cc :
  (∀ p, is_Some (ChannelGrid.cells g !! p) <-> in_grid sz p) ->
  Forall (fun z => is_Some (ChannelGrid.cells g
                              !! match T with
                                 | Channel.X => (cc, z)
                                 | Channel.Y => (z, cc)
                                 end)) (seqZ 0 (extent T sz))
  <-> line_exists T sz cc.
Proof.
  intros Hdom. rewrite Forall_seqZ. unfold line_exists.
  split.
  - intros H. destruct (decide (extent T sz ≤ 0)%Z) as [|Hpos]; [by left|].
    right. specialize (H 0%Z). rewrite Hdom in H.
    destruct H as [Hx Hy]; [lia|]. destruct T; simpl in *; done.
  - intros [H|H] z Hz; [lia|]. apply Hdom. unfold in_grid.
    destruct T; simpl in *; unfold Pos.x, Pos.y; simpl; lia.
Qed.

(** Fetching a line of a grid that has its cells. *)
Lemma fetch_line sz T g cc :
  ChannelGrid.size g = sz ->
  (∀ p, is_Some (ChannelGrid.cells g !! p) <-> in_grid sz p) ->
  (match T with
   | Channel.X => ChannelGrid.column g cc
   | Channel.Y => ChannelGrid.row g cc
   end)
  = if decide (line_exists T sz cc) then inr (line_refs T sz cc)
    else inl KeyError.
Proof.
  intros Hsz Hdom.
  pose proof (line_exists_Forall sz T g cc Hdom) as Hall.
  unfold ChannelGrid.column, ChannelGrid.row, ChannelGrid.x, ChannelGrid.y.
  rewrite Hsz. destruct T; simpl in Hall; rewrite collect_getitem;
    destruct (decide (line_exists _ sz cc)) as [H|H].
  - by rewrite decide_True by by apply Hall.
  - by rewrite decide_False by by rewrite Hall.
  - by rewrite decide_True by by apply Hall.
  - by rewrite decide_False by by rewrite Hall.
Qed.

Lemma located_cases sz T g chv :
  wf sz T g ->
  Channel.type chv = inr T ->
  across T (Channel.start chv) = across T (Channel.end_ chv) ->
  located chv g
  = if decide (line_exists T sz (across T (Channel.start chv))) then
      if decide (span_end T chv < Z.max 0 (extent T sz))%Z
      then inr (chv, line_refs T sz (across T (Channel.start chv)),
                span_start T chv, span_end T chv)
      else inl AssertionError
    else inl KeyError.
Proof.
  intros Hwf HT Hacr. pose proof Hwf as (_ & Hsz & Hdom & Hrect).
  set (cc := across T (Channel.start chv)).
  pose proof (fetch_line sz T g cc Hsz Hdom) as Hl1.
  unfold located. rewrite HT. cbn [rbind].
  rewrite (common_of_type chv T HT Hacr). fold cc.
  assert (Hm : match T with
               | Channel.X => (c <- inr cc ;; ChannelGrid.column g c)%res
               | Channel.Y => (c <- inr cc ;; ChannelGrid.row g c)%res
               end
               = match T with
                 | Channel.X => ChannelGrid.column g cc
                 | Channel.Y => ChannelGrid.row g cc
                 end) by by destruct T.
  rewrite Hm, Hl1. clear Hm Hl1.
  destruct (decide (line_exists T sz cc)) as [Hex|Hex]; [|done].
  cbn [rbind].
  assert (Hl2 : (ChannelGrid.assert_len_eq (line_refs T sz cc) g).1 = inr tt).
  { destruct (assert_len_eq_cases (line_refs T sz cc) g)
      as [[-> _]|[_ (p & q & Hp & Hq & Hne)]]; [done|].
    destruct Hne.
    assert (Hin : ∀ r, r ∈ line_refs T sz cc -> in_grid sz r).
    { intros r Hr. apply Hdom.
      apply (proj2 (line_exists_Forall sz T g cc Hdom)) in Hex.
      rewrite Forall_forall in Hex.
      unfold line_refs in Hr. destruct T;
        apply list_elem_of_fmap in Hr as (z & -> & Hz); by apply Hex. }
    apply Hrect; [by apply Hin..|].
    apply elem_of_line_refs in Hp as [-> _].
    by apply elem_of_line_refs in Hq as [-> _]. }
  rewrite Hl2. cbn [rbind].
  rewrite (start0_of_type chv T HT), (end0_of_type chv T HT).
  rewrite (direction_of_type chv T HT). cbn [rbind].
  rewrite length_line_refs.
  unfold span_start, span_end.
  set (a := along T (Channel.start chv)) in *.
  set (b := along T (Channel.end_ chv)) in *.
  set (n := Z.max 0 (extent T sz)).
  destruct (bool_decide (b < a)%Z) eqn:E.
  - apply bool_decide_eq_true in E.
    change (bool_decide (Channel.DEC = Channel.DEC)) with true. cbn iota.
    rewrite (bool_decide_eq_true_2 (a >= b)%Z) by lia.
    destruct (decide (Z.max a b < n)%Z) as [Hlt|Hge].
    + rewrite !bool_decide_eq_true_2 by lia. simpl.
      unfold ok. repeat f_equal; lia.
    + rewrite (bool_decide_eq_false_2 (a < n)%Z) by lia.
      by rewrite andb_false_r.
  - apply bool_decide_eq_false in E.
    change (bool_decide (Channel.INC = Channel.DEC)) with false. cbn iota.
    rewrite (bool_decide_eq_true_2 (b >= a)%Z) by lia.
    destruct (decide (Z.max a b < n)%Z) as [Hlt|Hge].
    + rewrite !bool_decide_eq_true_2 by lia. simpl.
      unfold ok. repeat f_equal; lia.
    + rewrite (bool_decide_eq_false_2 (b < n)%Z) by lia.
      by rewrite andb_false_r.
Qed.

(** The first half of [add_channel] on a fresh segment. *)
Lemma prepare_cases sz T g ch :
  wf sz T g ->
  Channel.type_attr ch = None ->
  straight ch ->
  (accepts sz T ch ->
   ∃ chv, prepare ch g
          = inr (chv, line_refs T sz (across T (Channel.start ch)),
                 span_start T ch, span_end T ch)
     ∧ (chv = ch ∨ chv = Channel.set_type ch T))
  ∧ (¬ accepts sz T ch -> prepare ch g = inl (rejection sz T ch)).
Proof.
  intros Hwf Hattr Hstr. pose proof Hwf as (HT & _).
  unfold prepare, accepts, rejection.
  destruct (decide (Channel.idx ch = None)) as [Hidx|Hidx].
  2:{ rewrite bool_decide_eq_false_2 by done. split; [by intros [? _]|done]. }
  rewrite bool_decide_eq_true_2 by done.
  destruct (decide (across T (Channel.start ch) = across T (Channel.end_ ch)))
    as [Hacr|Hacr].
  2:{ rewrite (checked_reject T g ch HT Hattr Hstr Hacr).
      split; [by intros (_ & ? & _)|done]. }
  destruct (checked_ok T g ch HT Hattr Hacr) as (chv & Hck & Hty & Es & Ee).
  assert (Hor : chv = ch ∨ chv = Channel.set_type ch T).
  { unfold checked in Hck. rewrite HT in Hck.
    destruct (Channel.type ch) as [|ty]; [done|]. cbn [rbind] in Hck.
    case_bool_decide; [|injection Hck as <-; by left].
    destruct (Channel.length ch) as [|n]; [done|]. cbn [rbind] in Hck.
    case_bool_decide; [done|]. injection Hck as <-. by right. }
  rewrite Hck. cbn [rbind].
  rewrite (located_cases sz T g chv Hwf Hty) by by rewrite Es, Ee.
  unfold span_start, span_end. rewrite Es, Ee.
  destruct (decide (line_exists T sz _)) as [Hex|Hex].
  2:{ split; [by intros (_ & _ & ? & _)|done]. }
  case_decide as Hlt.
  - split; [|by intros []]. intros _. by exists chv.
  - split; [by intros (_ & _ & _ & ?)|done].
Qed.

Lemma add_channel_accepts sz T hist g ch :
  Placed sz T hist g ->
  Channel.type_attr ch = None ->
  straight ch ->
  (∃ ch' g', ChannelGrid.add_channel ch g = (inr ch', g')) <-> accepts sz T ch.
Proof.
  intros HP Hattr Hstr. pose proof (Placed_wf _ _ _ _ HP) as Hwf.
  destruct (prepare_cases sz T g ch Hwf Hattr Hstr) as [Hyes Hno].
  split.
  - intros (ch' & g' & Hadd). destruct (decide (accepts sz T ch)); [done|].
    rewrite add_channel_split, Hno in Hadd by done. done.
  - intros Hacc. destruct (Hyes Hacc) as (chv & Hprep & Hor).
    rewrite add_channel_split, Hprep.
    apply prepare_inv in Hprep as (_ & _ & _ & Hacr & _ & _ & Hdom & Hrect & _).
    destruct (place_spec chv (line_refs T sz (across T (Channel.start ch)))
                (span_start T ch) (span_end T ch) g)
      as (k & g' & Hpl & _); [|exact Hdom|exact Hrect|by eauto].
    destruct Hacc as (_ & Hacc & _). unfold straight.
    destruct Hor as [->| ->]; simpl; destruct T; simpl in Hacc; auto.
Qed.

(** X1. On a reachable grid, a fresh segment is placed exactly when it has
    no index, its two ends are on one line of the grid, that line can be
    fetched and the range ends inside it.  Where the range starts plays no
    part: a negative start is not refused. *)
Theorem add_channel_succeeds_iff sz T hist g ch :
  Placed sz T hist g ->
  Channel.type_attr ch = None ->
  straight ch ->
  (∃ ch' g', ChannelGrid.add_channel ch g = (inr ch', g')) <-> accepts sz T ch.
Proof. apply add_channel_accepts. Qed.

Lemma add_channel_succeeds_iff_witness :
  (∃ ch' g', ChannelGrid.add_channel doc_B doc_grid_A = (inr ch', g'))
  <-> accepts (10, 10)%Z Channel.Y doc_B.
Proof.
  apply (add_channel_succeeds_iff (10, 10)%Z Channel.Y [indexed doc_A 0]
           doc_grid_A doc_B).
  - apply doc_Placed_A.
  - reflexivity.
  - by right.
Defined.

(** X2. On a reachable grid, a fresh segment that is not taken makes the
    call raise, and the grid stays as it was: [AssertionError] when the
    index is set, otherwise [TypeError] when the ends are not on one line of
    the grid, otherwise [KeyError] when that line is not in the grid,
    otherwise [AssertionError] for a range that ends beyond the line. *)
Theorem add_channel_rejects sz T hist g ch :
  Placed sz T hist g ->
  Channel.type_attr ch = None ->
  straight ch ->
  ¬ accepts sz T ch ->
  ChannelGrid.add_channel ch g = (inl (rejection sz T ch), g).
Proof.
  intros HP Hattr Hstr Hno. pose proof (Placed_wf _ _ _ _ HP) as Hwf.
  destruct (prepare_cases sz T g ch Hwf Hattr Hstr) as [_ Hrej].
  by rewrite add_channel_split, Hrej.
Qed.

(** A segment of row 5 that runs over the right edge of the grid, and one
    of a row the grid does not have. *)
Lemma add_channel_rejects_witness :
  ChannelGrid.add_channel (doc_segment (8, 5)%Z (12, 5)%Z "R") doc_grid_A
  = (inl AssertionError, doc_grid_A)
  ∧ ChannelGrid.add_channel (doc_segment (2, 10)%Z (4, 10)%Z "K") doc_grid_A
    = (inl KeyError, doc_grid_A).
Proof.
  split.
  - apply (add_channel_rejects (10, 10)%Z Channel.Y [indexed doc_A 0]
             doc_grid_A (doc_segment (8, 5)%Z (12, 5)%Z "R")).
    + apply doc_Placed_A.
    + reflexivity.
    + by right.
    + unfold accepts. vm_compute. intros (_ & _ & _ & H). discriminate H.
  - apply (add_channel_rejects (10, 10)%Z Channel.Y [indexed doc_A 0]
             doc_grid_A (doc_segment (2, 10)%Z (4, 10)%Z "K")).
    + apply doc_Placed_A.
    + reflexivity.
    + by right.
    + unfold accepts, line_exists. vm_compute.
      intros (_ & _ & [H|[_ H]] & _); [by apply H|discriminate H].
Defined.

(** ** What a call changes *)

Lemma add_channel_changes g ch r g' :
  ChannelGrid.add_channel ch g = (r, g') ->
  (∀ p, length (ChannelGrid.deref g p) ≤ length (ChannelGrid.deref g' p))
  ∧ (∀ p i c, track g p i = Some c -> track g' p i = Some c)
  ∧ (∀ p i c, track g' p i = Some c ->
       track g p i = Some c
       ∨ (r = inr c ∧ Channel.idx c = Some (Z.of_nat i))).
Proof.
  intros Hadd. destruct r as [e|ch'].
  { apply add_channel_inl in Hadd as [-> _]. by repeat split; auto. }
  apply add_channel_inr in Hadd
    as (k & Hch' & _ & _ & Hdom & _ & _ & _ & Hfree & _ & Hcells).
  set (l := line_refs _ _ _) in *. set (ps := slice l _ _) in *.
  assert (Hderef : ∀ p,
            ChannelGrid.deref g' p
            = if decide (p ∈ ps)
              then <[k := Some ch']>
                     (ChannelGrid.pad (k + 1) (ChannelGrid.deref g p))
              else if decide (p ∈ l)
              then ChannelGrid.pad (k + 1) (ChannelGrid.deref g p)
              else ChannelGrid.deref g p).
  { intros p. unfold ChannelGrid.deref. rewrite Hcells.
    destruct (decide (p ∈ ps)) as [Hp|Hp].
    - destruct (Hdom p) as [t ->]; [by eapply slice_subseteq|done].
    - destruct (decide (p ∈ l)) as [Hl|Hl]; [|done].
      by destruct (Hdom p Hl) as [t ->]. }
  assert (Hidx : Channel.idx ch' = Some (Z.of_nat k)) by by rewrite Hch'.
  split; [|split].
  - intros p. rewrite (Hderef p).
    repeat case_decide; rewrite ?length_insert, ?pad_length; lia.
  - intros p i c Htr. apply track_Some in Htr. apply track_Some.
    rewrite (Hderef p). destruct (decide (p ∈ ps)) as [Hp|Hp].
    + assert (i ≠ k).
      { intros ->. specialize (Hfree p Hp). apply track_Some in Htr.
        congruence. }
      rewrite list_lookup_insert_ne by done. by apply pad_lookup_Some.
    + case_decide; [by apply pad_lookup_Some|done].
  - intros p i c Htr. apply track_Some in Htr. rewrite (Hderef p) in Htr.
    destruct (decide (p ∈ ps)) as [Hp|Hp].
    + destruct (decide (i = k)) as [->|Hne].
      * apply list_lookup_insert_Some in Htr as [(_ & E & _)|[? _]]; [|done].
        injection E as <-. by right.
      * rewrite list_lookup_insert_ne in Htr by done. left.
        apply pad_lookup_Some in Htr. by apply track_Some.
    + left. apply track_Some.
      case_decide; [by apply pad_lookup_Some in Htr|done].
Qed.

(** X3. A call never removes or moves what a cell holds, and never shortens
    a list; what a cell holds after a successful call and did not hold
    before is the returned segment, at the position of its index. *)
Theorem add_channel_only_adds g ch r g' :
  ChannelGrid.add_channel ch g = (r, g') ->
  (∀ p, length (ChannelGrid.deref g p) ≤ length (ChannelGrid.deref g' p))
  ∧ (∀ p i c, track g p i = Some c -> track g' p i = Some c)
  ∧ (∀ p i c, track g' p i = Some c ->
       track g p i = Some c
       ∨ (r = inr c ∧ Channel.idx c = Some (Z.of_nat i))).
Proof. apply add_channel_changes. Qed.

Lemma add_channel_only_adds_witness :
  (∀ p, length (ChannelGrid.deref doc_grid_A p)
        ≤ length (ChannelGrid.deref doc_grid_AB p))
  ∧ (∀ p i c, track doc_grid_A p i = Some c -> track doc_grid_AB p i = Some c)
  ∧ (∀ p i c, track doc_grid_AB p i = Some c ->
       track doc_grid_A p i = Some c
       ∨ (inr (A := exn) (indexed doc_B 0) = inr c
          ∧ Channel.idx c = Some (Z.of_nat i))).
Proof.
  apply (add_channel_only_adds doc_grid_A doc_B (inr (indexed doc_B 0))
           doc_grid_AB).
  apply doc_step_B.
Defined.

(** ** What reachable grids hold *)

Lemma Placed_track_index sz T hist g p i c :
  Placed sz T hist g ->
  track g p i = Some c ->
  c ∈ hist ∧ Channel.idx c = Some (Z.of_nat i).
Proof.
  intros HP. revert p i c.
  induction HP as [|hist g ch ch' g' HP IH Hadd]; intros p i c Htr.
  - unfold track, ChannelGrid.deref in Htr. rewrite init_lookup in Htr.
    by case_decide.
  - destruct (add_channel_changes _ _ _ _ Hadd) as (_ & _ & Hnew).
    destruct (Hnew p i c Htr) as [Hold|[E Hidx]].
    + destruct (IH p i c Hold). split; [by right|done].
    + injection E as ->. split; [left|done].
Qed.

(** X4. In a reachable grid, whatever a cell holds at position [i] is a
    segment that an earlier call returned, and its index is [i]. *)
Theorem placed_track_index sz T hist g p i c :
  Placed sz T hist g ->
  track g p i = Some c ->
  c ∈ hist ∧ Channel.idx c = Some (Z.of_nat i).
Proof. apply Placed_track_index. Qed.

Lemma placed_track_index_witness :
  indexed doc_B 0 ∈ [indexed doc_B 0; indexed doc_A 0]
  ∧ Channel.idx (indexed doc_B 0) = Some (Z.of_nat 0).
Proof.
  apply (placed_track_index (10, 10)%Z Channel.Y
           [indexed doc_B 0; indexed doc_A 0] doc_grid_AB (4, 5)%Z 0).
  - apply doc_Placed_AB.
  - vm_compute. reflexivity.
Defined.

Lemma idx_pigeonhole (hist : list Channel.t) (k : nat) :
  (∀ j, j < k -> ∃ c, c ∈ hist ∧ Channel.idx c = Some (Z.of_nat j)) ->
  k ≤ length hist.
Proof.
  intros H.
  set (l1 := (fun j => Some (Z.of_nat j)) <$> seq 0 k).
  set (l2 := Channel.idx <$> hist).
  assert (Hnd : NoDup l1).
  { apply NoDup_fmap_2; [|apply NoDup_seq].
    intros a b [= E]. by apply Nat2Z.inj in E. }
  assert (Hsub : l1 ⊆+ l2).
  { apply NoDup_submseteq; [done|]. intros x Hx.
    apply list_elem_of_fmap in Hx as (j & -> & Hj).
    apply elem_of_seq in Hj. destruct (H j) as (c & Hc & <-); [lia|].
    by apply list_elem_of_fmap_2. }
  apply submseteq_length in Hsub. unfold l1, l2 in Hsub.
  by rewrite !length_fmap, length_seq in Hsub.
Qed.

Lemma add_channel_index_le sz T hist g ch ch' g' :
  Placed sz T hist g ->
  ChannelGrid.add_channel ch g = (inr ch', g') ->
  ∃ k, Channel.idx ch' = Some (Z.of_nat k) ∧ k ≤ length hist.
Proof.
  intros HP Hadd. apply add_channel_inr in Hadd
    as (k & -> & _ & _ & _ & _ & _ & _ & _ & Hocc & _).
  exists k. split; [done|]. apply idx_pigeonhole. intros j Hj.
  destruct (Hocc j Hj) as (p & _ & [c Hc]). exists c.
  by apply (Placed_track_index sz T hist g p j).
Qed.

(** X5. The track count is bounded by the number of segments: a call on a
    grid reached by [n] successful calls gives an index that is [n] at
    most, and no list of such a grid has more than [n] entries. *)
Theorem placed_index_bound sz T hist g :
  Placed sz T hist g ->
  (∀ p, length (ChannelGrid.deref g p) ≤ length hist)
  ∧ ∀ ch ch' g', ChannelGrid.add_channel ch g = (inr ch', g') ->
      ∃ k, Channel.idx ch' = Some (Z.of_nat k) ∧ k ≤ length hist.
Proof.
  intros HP.
  split; [|intros ch ch' g'; by apply (add_channel_index_le sz T)].
  induction HP as [|hist g ch ch' g' HP IH Hadd]; intros p.
  - unfold ChannelGrid.deref. rewrite init_lookup. by case_decide.
  - destruct (add_channel_index_le _ _ _ _ _ _ _ HP Hadd) as (k & Hk & Hle).
    destruct (add_channel_lengths _ _ _ _ Hadd) as (k' & Hk' & _ & Hl & Hoff).
    rewrite Hk in Hk'. injection Hk' as Hk'. apply Nat2Z.inj in Hk'. subst k'.
    specialize (IH p). simpl.
    destruct (decide (p ∈ line_refs (ChannelGrid.chan_type g)
                        (ChannelGrid.size g)
                        (across (ChannelGrid.chan_type g) (Channel.start ch))))
      as [Hp|Hp].
    + rewrite (Hl p Hp). lia.
    + unfold ChannelGrid.deref in *. rewrite (Hoff p Hp). lia.
Qed.

Lemma placed_index_bound_witness :
  (∀ p, length (ChannelGrid.deref doc_grid_AB p)
        ≤ length [indexed doc_B 0; indexed doc_A 0])
  ∧ ∀ ch ch' g', ChannelGrid.add_channel ch doc_grid_AB = (inr ch', g') ->
      ∃ k, Channel.idx ch' = Some (Z.of_nat k)
           ∧ k ≤ length [indexed doc_B 0; indexed doc_A 0].
Proof.
  apply (placed_index_bound (10, 10)%Z Channel.Y
           [indexed doc_B 0; indexed doc_A 0] doc_grid_AB).
  apply doc_Placed_AB.
Defined.

(** X6. After successful calls for segments whose ranges start at
    non-negative positions, the lists and the returned segments agree: what
    a cell of the grid holds at position [i] is a returned segment with
    index [i] that covers the cell, and every returned segment is held, at
    the position of its index, by each cell of the grid it covers. *)
Theorem placed_tracks_consistent sz T hist g :
  Placed sz T hist g ->
  Forall (span_nonneg T) hist ->
  consistent sz hist g.
Proof. intros HP Hnn. by destruct (Placed_consistent sz T hist g HP Hnn). Qed.

Lemma placed_tracks_consistent_witness :
  consistent (10, 10)%Z [indexed doc_B 0; indexed doc_A 0] doc_grid_AB.
Proof.
  apply (placed_tracks_consistent (10, 10)%Z Channel.Y
           [indexed doc_B 0; indexed doc_A 0] doc_grid_AB).
  - apply doc_Placed_AB.
  - repeat constructor; unfold span_nonneg; vm_compute; discriminate.
Defined.

(** X7. The orientation of what a grid holds: every segment a call on a
    Column grid returned is a Column, and every segment a call on a Row grid
    returned is a Row or a single point (which reads as a Column). *)
Theorem placed_types sz T hist g c :
  Placed sz T hist g ->
  c ∈ hist ->
  Channel.type c = inr T
  ∨ (T = Channel.Y ∧ Channel.start c = Channel.end_ c
     ∧ Channel.type c = inr Channel.X).
Proof.
  intros HP. revert c.
  induction HP as [|hist g ch ch' g' HP IH Hadd]; intros c Hc.
  - by apply elem_of_nil in Hc.
  - apply elem_of_cons in Hc as [->|Hc]; [|by apply IH].
    pose proof (Placed_wf _ _ _ _ HP) as (HT & _).
    apply add_channel_inr in Hadd as (k & -> & _ & Hacr & _).
    rewrite HT in Hacr. unfold Channel.type, Channel.static_property. simpl.
    destruct (Channel.start ch) as [sx sy], (Channel.end_ ch) as [ex ey].
    unfold across, Pos.x, Pos.y in *. simpl in *.
    destruct T; subst.
    + left. by rewrite bool_decide_eq_true_2.
    + case_bool_decide; [right; by subst|left].
      by rewrite bool_decide_eq_true_2.
Qed.

Lemma placed_types_witness :
  Channel.type (indexed doc_A 0) = inr Channel.Y
  ∨ (Channel.Y = Channel.Y
     ∧ Channel.start (indexed doc_A 0) = Channel.end_ (indexed doc_A 0)
     ∧ Channel.type (indexed doc_A 0) = inr Channel.X).
Proof.
  apply (placed_types (10, 10)%Z Channel.Y [indexed doc_A 0] doc_grid_A).
  - apply doc_Placed_A.
  - left.
Defined.

(** ** The fresh grid and its lines *)

(** X8. A fresh grid has an empty list for each cell of the rectangle
    [[0,width) x [0,height)] and no other key, so it has no cell at all
    when the width or the height is not positive; it carries the size and
    the orientation it was created with. *)
Theorem init_cells sz T :
  ChannelGrid.chan_type (ChannelGrid.init sz T) = T
  ∧ ChannelGrid.size (ChannelGrid.init sz T) = sz
  ∧ ∀ p, ChannelGrid.cells (ChannelGrid.init sz T) !! p
         = if decide (in_grid sz p) then Some [] else None.
Proof. split; [done|]. split; [done|]. apply init_lookup. Qed.

(** X9. On a reachable grid [row y] gives the references of the cells
    [(0, y)] to [(width - 1, y)] in this order when the grid has a row [y],
    and raises [KeyError] when it has none, unless the width is not positive:
    then it gives the empty list for every [y].  [column x] does the same
    with the roles of the coordinates exchanged. *)
Theorem row_column_fetch sz T hist g :
  Placed sz T hist g ->
  (∀ y, ChannelGrid.row g y
        = if decide ((Size.x sz ≤ 0)%Z ∨ (0 ≤ y < Size.y sz)%Z)
          then inr ((fun x => (x, y)) <$> seqZ 0 (Size.x sz))
          else inl KeyError)
  ∧ (∀ x, ChannelGrid.column g x
          = if decide ((Size.y sz ≤ 0)%Z ∨ (0 ≤ x < Size.x sz)%Z)
            then inr ((fun y => (x, y)) <$> seqZ 0 (Size.y sz))
            else inl KeyError).
Proof.
  intros HP. destruct (Placed_wf _ _ _ _ HP) as (_ & Hsz & Hdom & _).
  split; intros c.
  - apply (fetch_line sz Channel.Y g c Hsz Hdom).
  - apply (fetch_line sz Channel.X g c Hsz Hdom).
Qed.

Lemma row_column_fetch_witness :
  (∀ y, ChannelGrid.row doc_grid_A y
        = if decide ((Size.x (10, 10)%Z ≤ 0)%Z ∨ (0 ≤ y < Size.y (10, 10)%Z)%Z)
          then inr ((fun x => (x, y)) <$> seqZ 0 (Size.x (10, 10)%Z))
          else inl KeyError)
  ∧ (∀ x, ChannelGrid.column doc_grid_A x
          = if decide ((Size.y (10, 10)%Z ≤ 0)%Z ∨ (0 ≤ x < Size.x (10, 10)%Z)%Z)
            then inr ((fun y => (x, y)) <$> seqZ 0 (Size.y (10, 10)%Z))
            else inl KeyError).
Proof.
  apply (row_column_fetch (10, 10)%Z Channel.Y [indexed doc_A 0] doc_grid_A).
  apply doc_Placed_A.
Defined.

(** ** More on segments *)

(** X10. The length of a segment is never negative, and it is zero exactly
    for a segment of one point. *)
Theorem length_zero_iff (a b : Pos.t) (i : option Z) (o : option string)
    (c : Channel.t) :
  Channel.new a b i o = inr c ->
  ∃ n, Channel.length c = inr n ∧ (0 ≤ n)%Z ∧ (n = 0%Z <-> a = b).
Proof.
  intros Hnew.
  assert (Hstr : Pos.x a = Pos.x b ∨ Pos.y a = Pos.y b).
  { destruct (decide (Pos.x a = Pos.x b)); [by left|].
    destruct (decide (Pos.y a = Pos.y b)); [by right|].
    unfold Channel.new in Hnew. by rewrite !bool_decide_eq_true_2 in Hnew. }
  rewrite new_straight in Hnew by done. injection Hnew as <-.
  destruct a as [ax ay], b as [bx by_]. unfold Pos.x, Pos.y in Hstr.
  simpl in Hstr.
  unfold Channel.length, Channel.end0, Channel.start0, Channel.type,
    Channel.static_property. simpl. unfold Pos.x, Pos.y. simpl.
  case_bool_decide as Ex; simpl.
  - eexists. split; [done|]. split; [lia|]. split; [|intros [= _ ->]; lia].
    intros H. f_equal; lia.
  - destruct Hstr as [|Ey]; [done|]. rewrite bool_decide_eq_true_2 by done.
    simpl. eexists. split; [done|]. split; [lia|].
    split; [lia|intros [= -> _]; done].
Qed.

Lemma length_zero_iff_witness :
  ∃ n, Channel.length (Channel.mk (1, 1)%Z (1, 1)%Z None None None) = inr n
       ∧ (0 ≤ n)%Z ∧ (n = 0%Z <-> (1, 1)%Z = (1, 1)%Z).
Proof.
  apply (length_zero_iff (1, 1)%Z (1, 1)%Z None None). reflexivity.
Defined.

(** X11. Giving a segment from its other end: the construction succeeds as
    well, the orientation, the common coordinate and the length are the
    same, [start0] and [end0] are exchanged, and the direction is the other
    one unless the segment is a single point (whose direction is [INC]
    either way). *)
Theorem reversed_accessors (a b : Pos.t) (i : option Z) (o : option string)
    (c : Channel.t) :
  Channel.new a b i o = inr c ->
  Channel.new b a i o = inr (reversed c)
  ∧ Channel.type (reversed c) = Channel.type c
  ∧ Channel.common (reversed c) = Channel.common c
  ∧ Channel.length (reversed c) = Channel.length c
  ∧ Channel.start0 (reversed c) = Channel.end0 c
  ∧ Channel.end0 (reversed c) = Channel.start0 c
  ∧ (a ≠ b -> Channel.direction (reversed c) ≠ Channel.direction c)
  ∧ (a = b -> Channel.direction (reversed c) = inr Channel.INC
              ∧ Channel.direction c = inr Channel.INC).
Proof.
  intros Hnew.
  assert (Hstr : Pos.x a = Pos.x b ∨ Pos.y a = Pos.y b).
  { destruct (decide (Pos.x a = Pos.x b)); [by left|].
    destruct (decide (Pos.y a = Pos.y b)); [by right|].
    unfold Channel.new in Hnew. by rewrite !bool_decide_eq_true_2 in Hnew. }
  rewrite new_straight in Hnew by done. injection Hnew as <-.
  unfold reversed. simpl.
  split; [apply new_straight; destruct Hstr; auto|].
  destruct a as [ax ay], b as [bx by_]. unfold Pos.x, Pos.y in Hstr.
  simpl in Hstr.
  unfold Channel.direction, Channel.length, Channel.common, Channel.end0,
    Channel.start0, Channel.type, Channel.static_property.
  simpl. unfold Pos.x, Pos.y. simpl.
  destruct (decide (ax = bx)) as [->|Hx].
  - rewrite !(bool_decide_eq_true_2 (bx = bx)) by done. simpl.
    split; [done|]. split; [done|]. split; [f_equal; lia|].
    split; [done|]. split; [done|]. split.
    + intros Hne. assert (ay ≠ by_) by congruence.
      repeat case_bool_decide; try done; exfalso; lia.
    + intros E. assert (ay = by_) as -> by congruence.
      by rewrite bool_decide_eq_false_2 by lia.
  - destruct Hstr as [?| ->]; [done|].
    rewrite !(bool_decide_eq_false_2 (ax = bx)) by done.
    rewrite !(bool_decide_eq_false_2 (bx = ax)) by done.
    rewrite !(bool_decide_eq_true_2 (by_ = by_)) by done. simpl.
    split; [done|]. split; [done|]. split; [f_equal; lia|].
    split; [done|]. split; [done|]. split.
    + intros _. repeat case_bool_decide; try done; exfalso; lia.
    + intros E. by assert (ax = bx) by congruence.
Qed.

(** [Channel((10, 0), (0, 0))], of the docstrings, and its reverse. *)
Lemma reversed_accessors_witness :
  Channel.new (0, 0)%Z (10, 0)%Z None None
  = inr (reversed (Channel.mk (10, 0)%Z (0, 0)%Z None None None))
  ∧ Channel.direction (reversed (Channel.mk (10, 0)%Z (0, 0)%Z None None None))
    ≠ Channel.direction (Channel.mk (10, 0)%Z (0, 0)%Z None None None).
Proof.
  pose proof (reversed_accessors (10, 0)%Z (0, 0)%Z None None _ eq_refl)
    as (H1 & _ & _ & _ & _ & _ & H2 & _).
  split; [exact H1|]. apply H2. discriminate.
Defined.

(** X12. Setting the index twice: the second [update_idx] decides, the
    first leaves no trace, and neither carries over an orientation that was
    assigned to the segment. *)
Theorem update_idx_twice (c : Channel.t) (i j : option Z) :
  straight c ->
  ∃ c1 c2,
    (Channel.update_idx i c).1 = inr c1
    ∧ (Channel.update_idx j c1).1 = inr c2
    ∧ (Channel.update_idx j c).1 = inr c2
    ∧ Channel.idx c2 = j
    ∧ Channel.type_attr c2 = None.
Proof.
  intros Hstr. unfold Channel.update_idx, bind, get, lift. simpl.
  rewrite !new_straight by done. simpl. eexists _, _.
  split; [done|]. rewrite new_straight by done. done.
Qed.

Lemma update_idx_twice_witness :
  ∃ c1 c2,
    (Channel.update_idx (Some 0%Z) doc_A).1 = inr c1
    ∧ (Channel.update_idx (Some 2%Z) c1).1 = inr c2
    ∧ (Channel.update_idx (Some 2%Z) doc_A).1 = inr c2
    ∧ Channel.idx c2 = Some 2%Z
    ∧ Channel.type_attr c2 = None.
Proof. apply (update_idx_twice doc_A (Some 0%Z) (Some 2%Z)). by right. Defined.

(** ** Placement and the direction of a segment *)

Lemma covers_reversed c p : covers (reversed c) p <-> covers c p.
Proof. unfold covers, reversed. simpl. lia. Qed.

(** X13. Placement does not depend on the end a segment is given from: if a
    call places a fresh segment, whose range starts at a non-negative
    position, then on the same grid the call for the reversed segment
    succeeds as well and gives the same index, and the two resulting grids
    differ only in which of the two segments the covered cells hold at that
    index. *)
Theorem add_channel_reversed sz T hist g ch ch' g1 :
  Placed sz T hist g ->
  Channel.type_attr ch = None ->
  span_nonneg T ch ->
  ChannelGrid.add_channel ch g = (inr ch', g1) ->
  ∃ (k : nat) g2,
    ch' = indexed ch (Z.of_nat k)
    ∧ ChannelGrid.add_channel (reversed ch) g
      = (inr (indexed (reversed ch) (Z.of_nat k)), g2)
    ∧ ∀ p, in_grid sz p ->
        ChannelGrid.deref g2 p
        = if decide (covers ch p)
          then <[k := Some (indexed (reversed ch) (Z.of_nat k))]>
                 (ChannelGrid.deref g1 p)
          else ChannelGrid.deref g1 p.
Proof.
  intros HP Hattr Hnn Hadd. pose proof (Placed_wf _ _ _ _ HP) as Hwf.
  destruct (add_channel_summary _ _ _ _ _ _ Hwf Hnn Hadd)
    as (k & Hch' & Hacr & Hd1 & _ & Hfree1 & Hocc1).
  assert (Hstr : straight ch).
  { unfold straight. destruct T; simpl in Hacr; auto. }
  assert (Hacc : accepts sz T ch).
  { apply (add_channel_accepts sz T hist g ch HP Hattr Hstr). eauto. }
  assert (Hacc' : accepts sz T (reversed ch)).
  { destruct Hacc as (H1 & H2 & H3 & H4). unfold accepts, reversed.
    simpl. split; [done|]. split; [done|]. rewrite <- H2.
    split; [done|]. unfold span_end in *. simpl. lia. }
  assert (Hstr' : straight (reversed ch)).
  { unfold straight, reversed. simpl. destruct Hstr; auto. }
  destruct (proj2 (add_channel_accepts sz T hist g (reversed ch) HP Hattr
                     Hstr') Hacc') as (ch2 & g2 & Hadd2).
  assert (Hnn' : span_nonneg T (reversed ch)).
  { unfold span_nonneg, span_start, reversed in *. simpl. lia. }
  destruct (add_channel_summary _ _ _ _ _ _ Hwf Hnn' Hadd2)
    as (k2 & Hch2 & _ & Hd2 & _ & Hfree2 & Hocc2).
  assert (Hk : k2 = k).
  { destruct (Nat.lt_trichotomy k2 k) as [Hlt|[Heq|Hgt]]; [|done|].
    - destruct (Hocc1 k2 Hlt) as (p & _ & Hp & Ho).
      apply covers_reversed in Hp. destruct (Hfree2 p Hp) as [_ Hn].
      rewrite Hn in Ho. by destruct Ho.
    - destruct (Hocc2 k Hgt) as (p & _ & Hp & Ho).
      apply covers_reversed in Hp. destruct (Hfree1 p Hp) as [_ Hn].
      rewrite Hn in Ho. by destruct Ho. }
  subst k2. exists k, g2. split; [by rewrite Hch'|]. split.
  { by rewrite Hadd2, Hch2. }
  intros p Hp. rewrite (Hd2 p Hp), (Hd1 p Hp).
  assert (Eacr : across T (Channel.start (reversed ch))
                 = across T (Channel.start ch)) by by rewrite Hacr.
  rewrite Eacr.
  destruct (decide (covers ch p)) as [Hc|Hc].
  - rewrite decide_True by by apply covers_reversed.
    rewrite list_insert_insert_eq. by rewrite Hch2.
  - rewrite decide_False by by rewrite covers_reversed. done.
Qed.

(** [B] of the example and [B] given from (6, 5) to (4, 5). *)
Lemma add_channel_reversed_witness :
  ∃ (k : nat) g2,
    indexed doc_B 0 = indexed doc_B (Z.of_nat k)
    ∧ ChannelGrid.add_channel (reversed doc_B) doc_grid_A
      = (inr (indexed (reversed doc_B) (Z.of_nat k)), g2)
    ∧ ∀ p, in_grid (10, 10)%Z p ->
        ChannelGrid.deref g2 p
        = if decide (covers doc_B p)
          then <[k := Some (indexed (reversed doc_B) (Z.of_nat k))]>
                 (ChannelGrid.deref doc_grid_AB p)
          else ChannelGrid.deref doc_grid_AB p.
Proof.
  apply (add_channel_reversed (10, 10)%Z Channel.Y [indexed doc_A 0]
           doc_grid_A doc_B (indexed doc_B 0) doc_grid_AB).
  - apply doc_Placed_A.
  - reflexivity.
  - unfold span_nonneg. vm_compute. discriminate.
  - apply doc_step_B.
Defined.

(** ** Calls on different lines *)

Lemma add_channel_inr_wf sz T g ch ch' g' :
  wf sz T g ->
  ChannelGrid.add_channel ch g = (inr ch', g') ->
  let l := line_refs T sz (across T (Channel.start ch)) in
  let ps := slice l (span_start T ch) (span_end T ch + 1) in
  ∃ k : nat,
    ch' = indexed ch (Z.of_nat k)
    ∧ straight ch
    ∧ (∀ p, p ∈ ps -> track g p k = None)
    ∧ (∀ j, j < k -> ∃ p, p ∈ ps ∧ is_Some (track g p j))
    ∧ ∀ p, ChannelGrid.cells g' !! p
           = if decide (p ∈ ps)
             then (fun t => <[k := Some ch']> (ChannelGrid.pad (k + 1) t))
                  <$> ChannelGrid.cells g !! p
             else if decide (p ∈ l)
             then ChannelGrid.pad (k + 1) <$> ChannelGrid.cells g !! p
             else ChannelGrid.cells g !! p.
Proof.
  intros (HT & Hsz & _) Hadd l ps. apply add_channel_inr in Hadd
    as (k & Hch' & _ & Hacr & _ & _ & _ & _ & Hfree & Hocc & Hcells).
  rewrite HT, Hsz in *. exists k. split; [done|]. split.
  { unfold straight. destruct T; simpl in Hacr; auto. }
  by repeat split.
Qed.

(** The least free index is decided by what the cells of the range hold. *)
Lemma least_free_unique (g h : ChannelGrid.t) (ps : list Pos.t) (k1 k2 : nat) :
  (∀ p i, p ∈ ps -> track g p i = track h p i) ->
  (∀ p, p ∈ ps -> track g p k1 = None) ->
  (∀ j, j < k1 -> ∃ p, p ∈ ps ∧ is_Some (track g p j)) ->
  (∀ p, p ∈ ps -> track h p k2 = None) ->
  (∀ j, j < k2 -> ∃ p, p ∈ ps ∧ is_Some (track h p j)) ->
  k1 = k2.
Proof.
  intros Heq Hf1 Ho1 Hf2 Ho2.
  destruct (Nat.lt_trichotomy k1 k2) as [Hlt|[Heq'|Hgt]]; [|done|].
  - destruct (Ho2 k1 Hlt) as (p & Hp & Ho). rewrite <- Heq in Ho by done.
    rewrite Hf1 in Ho by done. by destruct Ho.
  - destruct (Ho1 k2 Hgt) as (p & Hp & Ho). rewrite Heq in Ho by done.
    rewrite Hf2 in Ho by done. by destruct Ho.
Qed.

Lemma track_cells_eq g h p i :
  ChannelGrid.cells g !! p = ChannelGrid.cells h !! p ->
  track g p i = track h p i.
Proof. unfold track, ChannelGrid.deref. by intros ->. Qed.

(** X14. Calls for fresh segments on different lines of a reachable grid
    commute: in the other order both calls succeed as well, they return the
    same two segments, and they leave the same grid. *)
Theorem add_channel_commute sz T hist g a b a' b' ga gab :
  Placed sz T hist g ->
  Channel.type_attr a = None ->
  Channel.type_attr b = None ->
  across T (Channel.start a) ≠ across T (Channel.start b) ->
  ChannelGrid.add_channel a g = (inr a', ga) ->
  ChannelGrid.add_channel b ga = (inr b', gab) ->
  ∃ gb, ChannelGrid.add_channel b g = (inr b', gb)
        ∧ ChannelGrid.add_channel a gb = (inr a', gab).
Proof.
  intros HP Hfa Hfb Hne H1 H2.
  pose proof (Placed_step _ _ _ _ _ _ _ HP H1) as HPa.
  pose proof (Placed_wf _ _ _ _ HP) as Hwf.
  pose proof (Placed_wf _ _ _ _ HPa) as Hwfa.
  destruct (add_channel_inr_wf _ _ _ _ _ _ Hwf H1)
    as (ka & Ha' & Hsa & Hfree1 & Hocc1 & Hc1).
  destruct (add_channel_inr_wf _ _ _ _ _ _ Hwfa H2)
    as (kb & Hb' & Hsb & Hfree2 & Hocc2 & Hc2).
  set (la := line_refs T sz (across T (Channel.start a))) in *.
  set (lb := line_refs T sz (across T (Channel.start b))) in *.
  set (psa := slice la (span_start T a) (span_end T a + 1)) in *.
  set (psb := slice lb (span_start T b) (span_end T b + 1)) in *.
  assert (Hsuba : psa ⊆ la) by apply slice_subseteq.
  assert (Hsubb : psb ⊆ lb) by apply slice_subseteq.
  assert (Hdisj : ∀ p, p ∈ la -> p ∈ lb -> False).
  { intros p [E1 _]%elem_of_line_refs [E2 _]%elem_of_line_refs. congruence. }
  (* the other order succeeds *)
  assert (Hacc_b : accepts sz T b).
  { apply (add_channel_accepts sz T _ ga b HPa Hfb Hsb). eauto. }
  destruct (proj2 (add_channel_accepts sz T hist g b HP Hfb Hsb) Hacc_b)
    as (b3 & gb & H3).
  pose proof (Placed_step _ _ _ _ _ _ _ HP H3) as HPb.
  pose proof (Placed_wf _ _ _ _ HPb) as Hwfb.
  assert (Hacc_a : accepts sz T a).
  { apply (add_channel_accepts sz T hist g a HP Hfa Hsa). eauto. }
  destruct (proj2 (add_channel_accepts sz T _ gb a HPb Hfa Hsa) Hacc_a)
    as (a4 & g4 & H4).
  destruct (add_channel_inr_wf _ _ _ _ _ _ Hwf H3)
    as (k3 & Hb3 & _ & Hfree3 & Hocc3 & Hc3).
  destruct (add_channel_inr_wf _ _ _ _ _ _ Hwfb H4)
    as (k4 & Ha4 & _ & Hfree4 & Hocc4 & Hc4).
  fold la lb psa psb in Hc3, Hc4, Hfree3, Hfree4, Hocc3, Hocc4.
  (* the cells of one line are not touched by the call on the other *)
  assert (Hoff1 : ∀ p, p ∈ lb -> ChannelGrid.cells ga !! p
                                 = ChannelGrid.cells g !! p).
  { intros p Hp. rewrite Hc1.
    rewrite decide_False by (intros ?; apply (Hdisj p); auto).
    rewrite decide_False by (intros ?; apply (Hdisj p); auto). done. }
  assert (Hoff3 : ∀ p, p ∈ la -> ChannelGrid.cells gb !! p
                                 = ChannelGrid.cells g !! p).
  { intros p Hp. rewrite Hc3.
    rewrite decide_False by (intros ?; apply (Hdisj p); auto).
    rewrite decide_False by (intros ?; apply (Hdisj p); auto). done. }
  assert (Ek3 : k3 = kb).
  { apply (least_free_unique g ga psb); try done.
    intros p i Hp. apply track_cells_eq. symmetry. by apply Hoff1, Hsubb. }
  assert (Ek4 : k4 = ka).
  { apply (least_free_unique gb g psa); try done.
    intros p i Hp. apply track_cells_eq. by apply Hoff3, Hsuba. }
  subst k3 k4. rewrite <- Hb' in Hb3. rewrite <- Ha' in Ha4. subst b3 a4.
  exists gb. split; [done|]. rewrite H4. f_equal.
  destruct Hwfa as (_ & _ & _).
  destruct (Placed_wf _ _ _ _ (Placed_step _ _ _ _ _ _ _ HPa H2))
    as (HT2 & Hsz2 & _).
  destruct (Placed_wf _ _ _ _ (Placed_step _ _ _ _ _ _ _ HPb H4))
    as (HT4 & Hsz4 & _).
  destruct g4 as [t4 s4 c4], gab as [t2 s2 c2]. simpl in *. subst.
  f_equal. apply map_eq. intros p. rewrite Hc4, Hc2, Hc3, Hc1.
  destruct (decide (p ∈ psa)) as [Hpa|Hpa], (decide (p ∈ la)) as [Hla|Hla],
    (decide (p ∈ psb)) as [Hpb|Hpb], (decide (p ∈ lb)) as [Hlb|Hlb];
    try done; exfalso;
    first [ by apply (Hdisj p) | by apply Hla, Hsuba | by apply Hlb, Hsubb ].
Qed.

(** [B] in row 5 and [D] in row 6 of the example. *)
Lemma add_channel_commute_witness :
  ∃ gb, ChannelGrid.add_channel doc_D doc_grid_A
        = (inr (indexed doc_D 0), gb)
        ∧ ChannelGrid.add_channel doc_B gb
          = (inr (indexed doc_B 0),
             (ChannelGrid.add_channel doc_D doc_grid_AB).2).
Proof.
  apply (add_channel_commute (10, 10)%Z Channel.Y [indexed doc_A 0]
           doc_grid_A doc_B doc_D (indexed doc_B 0) (indexed doc_D 0)
           doc_grid_AB (ChannelGrid.add_channel doc_D doc_grid_AB).2).
  - apply doc_Placed_A.
  - reflexivity.
  - reflexivity.
  - vm_compute. discriminate.
  - apply doc_step_B.
  - vm_compute. reflexivity.
Defined.

(** ** The text forms of a segment *)

Lemma append_nil (r : string) : "" +:+ r = r.
Proof. reflexivity. Qed.

Lemma append_cons (c : Ascii.ascii) (s r : string) :
  String c s +:+ r = String c (s +:+ r).
Proof. reflexivity. Qed.

Lemma digits_go (x : N) (s : string) : digits s -> digits (pretty_N_go x s).
Proof.
  revert s. induction (N.lt_wf_0 x) as [x _ IH]; intros s Hs.
  assert (x = 0 ∨ 0 < x)%N as [->|Hx] by lia.
  - by rewrite pretty_N_go_0.
  - rewrite pretty_N_go_step by done. apply IH.
    { by apply N.div_lt. }
    split; [|done]. unfold pretty_N_char. by repeat case_match.
Qed.

Lemma go_nonempty (x : N) (s : string) : s ≠ "" -> pretty_N_go x s ≠ "".
Proof.
  revert s. induction (N.lt_wf_0 x) as [x _ IH]; intros s Hs.
  assert (x = 0 ∨ 0 < x)%N as [->|Hx] by lia.
  - by rewrite pretty_N_go_0.
  - rewrite pretty_N_go_step by done. apply IH; [by apply N.div_lt|done].
Qed.

(** The numeral of a natural number: digits, and at least one. *)
Lemma digits_pretty_N (x : N) : digits (pretty x) ∧ pretty x ≠ "".
Proof.
  unfold pretty, pretty_N. case_decide; [done|]. split.
  - by apply digits_go.
  - rewrite pretty_N_go_step by lia. by apply go_nonempty.
Qed.

(** Where a run of digits ends in a text is decided by the text. *)
Lemma digits_split (s1 s2 r1 r2 : string) :
  digits s1 -> digits s2 -> stops r1 -> stops r2 ->
  s1 +:+ r1 = s2 +:+ r2 -> s1 = s2 ∧ r1 = r2.
Proof.
  revert s2. induction s1 as [|c s1 IH]; intros [|c' s2];
    rewrite ?append_nil, ?append_cons; simpl.
  - done.
  - intros _ [Hc _] Hr1 _ Heq. subst r1. simpl in Hr1. congruence.
  - intros [Hc _] _ _ Hr2 Heq. subst r2. simpl in Hr2. congruence.
  - intros [_ H1] [_ H2] Hr1 Hr2 Heq. injection Heq as -> Heq.
    destruct (IH s2 H1 H2 Hr1 Hr2 Heq) as [-> ->]. done.
Qed.

(** The same for the numeral of an integer, which a sign can lead. *)
Lemma pretty_split (a b : Z) (r1 r2 : string) :
  stops r1 -> stops r2 ->
  pretty a +:+ r1 = pretty b +:+ r2 -> a = b ∧ r1 = r2.
Proof.
  intros Hr1 Hr2 Heq.
  assert (Hnn : ∀ z : Z, (0 ≤ z)%Z ->
            ∃ c s, pretty z = String c s ∧ digit c = true ∧ digits s).
  { intros [|p|p] Hz; [do 2 eexists; split; [reflexivity|done]| |lia].
    destruct (digits_pretty_N (Npos p)) as [Hd Hne].
    change (pretty (Z.pos p)) with (pretty (N.pos p)).
    destruct (pretty (N.pos p)) as [|c s]; [done|]. exists c, s.
    by destruct Hd. }
  assert (Hneg : ∀ z : Z, (z < 0)%Z -> pretty z = "-" +:+ pretty (- z)%Z).
  { intros [|p|p] Hz; [lia|lia|done]. }
  assert (Hpos : ∀ x y : Z, (0 ≤ x)%Z -> (0 ≤ y)%Z ->
            pretty x +:+ r1 = pretty y +:+ r2 -> x = y ∧ r1 = r2).
  { intros x y Hx Hy Hxy.
    destruct (Hnn x Hx) as (c & s & Ex & Hc & Hs).
    destruct (Hnn y Hy) as (c' & s' & Ey & Hc' & Hs').
    destruct (digits_split (pretty x) (pretty y) r1 r2) as [Hp ->];
      [by rewrite Ex|by rewrite Ey|done..|].
    split; [|done]. by apply (inj pretty). }
  destruct (decide (0 ≤ a)%Z) as [Ha|Ha], (decide (0 ≤ b)%Z) as [Hb|Hb].
  - by apply Hpos.
  - exfalso. destruct (Hnn a Ha) as (c & s & Ea & Hc & _).
    rewrite Ea, (Hneg b) in Heq by lia. rewrite !append_cons in Heq.
    injection Heq as -> _. discriminate Hc.
  - exfalso. destruct (Hnn b Hb) as (c & s & Eb & Hc & _).
    rewrite Eb, (Hneg a) in Heq by lia. rewrite !append_cons in Heq.
    injection Heq as <- _. discriminate Hc.
  - rewrite (Hneg a), (Hneg b) in Heq by lia. rewrite !append_cons in Heq.
    injection Heq as Heq. rewrite !append_nil in Heq.
    destruct (Hpos (- a)%Z (- b)%Z) as [? ->]; [lia|lia|done|].
    split; [lia|done].
Qed.

(** The examples of the two docstrings. *)
Example text_doc_examples :
  Channel.repr (Channel.mk (0, 0) (10, 0) None None None)%Z = "C((0,0), (10,0))"
  ∧ Channel.repr (Channel.mk (1, 2) (3, 2) (Some 5) None None)%Z
    = "C((1,2), (3,2), 5)"
  ∧ Channel.repr (Channel.mk (1, 2) (3, 2) None (Some "ABC") None)%Z = "C(ABC)"
  ∧ Channel.repr (Channel.mk (1, 2) (3, 2) (Some 5) (Some "ABC") None)%Z
    = "C(ABC,5)"
  ∧ Channel.str (Channel.mk (0, 0) (10, 0) None None None)%Z
    = inr "CHANY 0,0->10,0"
  ∧ Channel.str (Channel.mk (0, 0) (0, 10) None None None)%Z
    = inr "CHANX 0,0->0,10"
  ∧ Channel.str (Channel.mk (1, 2) (3, 2) (Some 5) None None)%Z
    = inr "CHANY 1,2->3,2 @5"
  ∧ Channel.str (Channel.mk (1, 2) (3, 2) None (Some "ABC") None)%Z = inr "ABC"
  ∧ Channel.str (Channel.mk (1, 2) (3, 2) (Some 5) (Some "ABC") None)%Z
    = inr "ABC@5".
Proof. vm_compute. repeat split; reflexivity. Qed.

(** X15. The two text forms of a segment without a label are unambiguous:
    segments with the same [repr], or with the same [str], have the same
    start, end and index. *)
Theorem text_determines_segment (c1 c2 : Channel.t) :
  Channel.label c1 = None -> Channel.label c2 = None ->
  Channel.repr c1 = Channel.repr c2
  ∨ (∃ s, Channel.str c1 = inr s ∧ Channel.str c2 = inr s) ->
  Channel.start c1 = Channel.start c2
  ∧ Channel.end_ c1 = Channel.end_ c2
  ∧ Channel.idx c1 = Channel.idx c2.
Proof.
  intros Hl1 Hl2.
  destruct c1 as [[a1 b1] [d1 e1] i1 o1 t1], c2 as [[a2 b2] [d2 e2] i2 o2 t2].
  unfold Channel.repr, Channel.str. rewrite Hl1, Hl2.
  cbn [Channel.start Channel.end_ Channel.idx Pos.x Pos.y fst snd].
  intros [Heq|(s & Hs1 & Hs2)].
  - cbn [String.append] in Heq. injection Heq as Heq.
    apply pretty_split in Heq as [-> Heq]; [|reflexivity..].
    injection Heq as Heq.
    apply pretty_split in Heq as [-> Heq]; [|reflexivity..].
    injection Heq as Heq.
    apply pretty_split in Heq as [-> Heq]; [|reflexivity..].
    injection Heq as Heq.
    apply pretty_split in Heq as [-> Heq]; [|reflexivity..].
    injection Heq as Heq.
    split; [done|]. split; [done|].
    destruct i1 as [i1|], i2 as [i2|]; cbn [String.append] in Heq;
      try discriminate; [|done].
    injection Heq as Heq.
    apply pretty_split in Heq as [-> _]; [done|reflexivity..].
  - destruct (Channel.type _) as [?|ty1]; [done|].
    destruct (Channel.type _) as [?|ty2]; [done|].
    cbn [rbind ok] in Hs1, Hs2. injection Hs1 as <-. injection Hs2 as Heq.
    assert (Hst : ∀ i : option Z,
      stops (match i with Some i => " @" +:+ pretty i | None => "" end)).
    { by intros [?|]. }
    destruct ty1, ty2; cbn [Channel.Type_value String.append] in Heq;
      try discriminate; injection Heq as Heq.
    all: symmetry in Heq.
    all: apply pretty_split in Heq as [-> Heq]; [|reflexivity..].
    all: injection Heq as Heq.
    all: apply pretty_split in Heq as [-> Heq]; [|reflexivity..].
    all: injection Heq as Heq.
    all: apply pretty_split in Heq as [-> Heq]; [|reflexivity..].
    all: injection Heq as Heq.
    all: apply pretty_split in Heq as [-> Heq]; [|apply Hst..].
    all: split; [done|]; split; [done|].
    all: destruct i1 as [i1|], i2 as [i2|];
      rewrite ?append_cons, ?append_nil in Heq; try discriminate; [|done].
    all: injection Heq as Heq.
    all: apply (inj pretty) in Heq; by subst.
Qed.

(** A segment with its index, read back from either form. *)
Lemma text_determines_segment_witness :
  Channel.start (Channel.mk (1, 2) (3, 2) (Some 5) None None)%Z = (1, 2)%Z
  ∧ Channel.end_ (Channel.mk (1, 2) (3, 2) (Some 5) None None)%Z = (3, 2)%Z
  ∧ Channel.idx (Channel.mk (1, 2) (3, 2) (Some 5) None None)%Z
    = Channel.idx (Channel.mk (1, 2) (3, 2) (Some 5) (Some "") (Some Channel.Y))%Z.
Proof.
  apply (text_determines_segment
           (Channel.mk (1, 2) (3, 2) (Some 5) None None)%Z
           (Channel.mk (1, 2) (3, 2) (Some 5) (Some "") (Some Channel.Y))%Z).
  - reflexivity.
  - reflexivity.
  - right. exists "CHANY 1,2->3,2 @5". split; vm_compute; reflexivity.
Defined.

(** ** Rendering *)


(** ** Rendering *)

Lemma fold_res_inv {A B} (P : B -> Prop) (f : B -> A -> res B) l b :
  P b ->
  (∀ b a, a ∈ l -> P b -> ∃ b', f b a = inr b' ∧ P b') ->
  ∃ b', fold_res f l b = inr b' ∧ P b'.
Proof.
  revert b. induction l as [|a l IH]; intros b Hb Hf; cbn [fold_res].
  - by exists b.
  - destruct (Hf b a) as (b' & -> & Hb'); [left|done|]. cbn [rbind].
    apply IH; [done|]. intros b0 a0 Ha0. apply Hf. by right.
Qed.

Lemma collect_inv {A B} (Q : A -> B -> Prop) (f : A -> res B) l :
  (∀ a, a ∈ l -> ∃ b, f a = inr b ∧ Q a b) ->
  ∃ bs, collect f l = inr bs ∧ Forall2 Q l bs.
Proof.
  induction l as [|a l IH]; intros Hf; cbn [collect].
  - by exists [].
  - destruct (Hf a) as (b & -> & Hb); [left|]. cbn [rbind].
    destruct IH as (bs & -> & Hbs).
    { intros a0 Ha0. apply Hf. by right. }
    cbn [rbind]. exists (b :: bs). split; [done|]. by constructor.
Qed.

Lemma item_ok {A} (l : list A) (i : Z) :
  (0 ≤ i < Z.of_nat (length l))%Z ->
  ∃ a, item l i = inr a ∧ l !! Z.to_nat i = Some a.
Proof.
  intros Hi. unfold item, index. cbn zeta.
  rewrite bool_decide_eq_true_2 by done. cbn [rbind ok].
  destruct (lookup_lt_is_Some_2 l (Z.to_nat i)) as [a Ha]; [lia|].
  exists a. by rewrite Ha.
Qed.

(** What a reachable grid holds are straight segments that carry no type
    of their own. *)
Lemma Placed_hist_fresh sz T hist g c :
  Placed sz T hist g -> c ∈ hist ->
  straight c ∧ Channel.type_attr c = None.
Proof.
  intros HP. revert c.
  induction HP as [|hist g ch ch' g' HP IH Hadd]; intros c Hc.
  - by apply elem_of_nil in Hc.
  - apply elem_of_cons in Hc as [->|Hc]; [|by apply IH].
    destruct (add_channel_inr_wf _ _ _ _ _ _ (Placed_wf _ _ _ _ HP) Hadd)
      as (k & -> & Hs & _). done.
Qed.

Lemma get_str_fresh (c : Channel.t) :
  straight c -> Channel.type_attr c = None ->
  ∃ s, ChannelGrid.get_str (Some c) = inr s.
Proof.
  intros Hs Ha. unfold ChannelGrid.get_str, Channel.str.
  destruct (Channel.label c) as [l|]; [by exists l|].
  unfold Channel.type, Channel.static_property. rewrite Ha.
  destruct Hs as [Hx|Hy].
  - rewrite bool_decide_eq_true_2 by done. cbn [rbind ok]. eauto.
  - case_bool_decide; [cbn [rbind ok]; eauto|].
    rewrite bool_decide_eq_true_2 by done. cbn [rbind ok]. eauto.
Qed.

Lemma get_str_stored sz T hist g p ch :
  Placed sz T hist g -> ch ∈ ChannelGrid.deref g p ->
  ∃ s, ChannelGrid.get_str ch = inr s.
Proof.
  intros HP Hin. destruct ch as [c|]; [|by exists ""].
  apply list_elem_of_lookup in Hin as [i Hi].
  assert (Htr : track g p i = Some c) by (unfold track; by rewrite Hi).
  destruct (Placed_hist_fresh _ _ _ _ c HP) as [Hs Ha].
  { by apply (Placed_track_hist _ _ _ _ _ _ _ HP Htr). }
  by apply get_str_fresh.
Qed.

Lemma getitem_in_grid sz T g p :
  wf sz T g -> in_grid sz p -> ChannelGrid.getitem g p = inr p.
Proof.
  intros (_ & _ & Hdom & _) Hp. unfold ChannelGrid.getitem.
  apply Hdom in Hp as [l ->]. done.
Qed.

Lemma seqZ_in_grid sz T g col row :
  wf sz T g ->
  col ∈ seqZ 0 (ChannelGrid.x g) -> row ∈ seqZ 0 (ChannelGrid.y g) ->
  in_grid sz (col, row).
Proof.
  intros (_ & <- & _) Hc Hr. apply elem_of_seqZ in Hc, Hr.
  unfold in_grid, ChannelGrid.x, ChannelGrid.y in *. simpl. lia.
Qed.

Lemma longest_ok sz T hist g :
  Placed sz T hist g -> ∃ m, ChannelGrid.longest g = inr m ∧ (1 ≤ m)%Z.
Proof.
  intros HP. pose proof (Placed_wf _ _ _ _ HP) as Hwf.
  unfold ChannelGrid.longest.
  apply (fold_res_inv (fun m => 1 ≤ m)%Z); [done|]. intros m row Hrow Hm.
  apply (fold_res_inv (fun m => 1 ≤ m)%Z); [done|]. clear m Hm.
  intros m col Hcol Hm.
  rewrite (getitem_in_grid sz T) by eauto using seqZ_in_grid. cbn [rbind].
  apply (fold_res_inv (fun m => 1 ≤ m)%Z); [done|]. clear m Hm.
  intros m ch Hch Hm.
  destruct (get_str_stored _ _ _ _ _ _ HP Hch) as [s ->]. cbn [rbind ok].
  eexists. split; [done|]. lia.
Qed.

Lemma track_text_stored sz T hist g m p ch :
  Placed sz T hist g -> ch ∈ ChannelGrid.deref g p ->
  ∃ s, ChannelGrid.track_text (ChannelGrid.chan_type g) m p ch = inr s.
Proof.
  intros HP Hin. destruct (get_str_stored _ _ _ _ _ _ HP Hin) as [s Hs].
  unfold ChannelGrid.track_text. rewrite Hs. cbn [rbind ok].
  destruct ch as [c|]; [|eauto]. case_bool_decide; eauto.
Qed.

Lemma cell_texts_ok sz T hist g m p :
  Placed sz T hist g -> in_grid sz p ->
  ∃ texts, ChannelGrid.cell_texts g m p = inr texts
           ∧ length texts = S (length (ChannelGrid.deref g p)).
Proof.
  intros HP Hp. unfold ChannelGrid.cell_texts.
  rewrite (getitem_in_grid sz T) by eauto using Placed_wf. cbn [rbind].
  destruct (collect_inv (fun _ _ => True)
              (ChannelGrid.track_text (ChannelGrid.chan_type g) m p)
              (ChannelGrid.deref g p)) as (texts & -> & HF).
  { intros ch Hch. destruct (track_text_stored _ _ _ _ m _ _ HP Hch) as [s ->].
    eauto. }
  cbn [rbind ok]. eexists. split; [done|]. simpl.
  by rewrite (Forall2_length _ _ _ HF).
Qed.


Lemma rows_ok sz T hist g m :
  Placed sz T hist g ->
  ∃ rows,
    collect (fun y =>
               collect (fun x => ChannelGrid.cell_texts g m (x, y))
                 (seqZ 0 (ChannelGrid.x g)))
      (seqZ 0 (ChannelGrid.y g)) = inr rows
    ∧ Forall2 (row_texts g) (seqZ 0 (ChannelGrid.y g)) rows.
Proof.
  intros HP. pose proof (Placed_wf _ _ _ _ HP) as Hwf.
  apply collect_inv. intros y Hy. apply collect_inv. intros x Hx.
  apply (cell_texts_ok sz T hist); [done|]. by apply (seqZ_in_grid sz T g).
Qed.

(** The check passes on lists of one length and on nothing else. *)
Lemma assert_len_eq_lists_cases {A} (l : list (list A)) :
  (even l ∧ ChannelGrid.assert_len_eq_lists l = inr tt)
  ∨ (¬ even l ∧ ChannelGrid.assert_len_eq_lists l = inl AssertionError).
Proof.
  destruct l as [|p l]; cbn [ChannelGrid.assert_len_eq_lists].
  { left. split; [|done]. intros p q Hp. by apply elem_of_nil in Hp. }
  destruct (forallb _ l) eqn:Hall.
  - left. split; [|done].
    apply Is_true_true_2, forallb_True in Hall. rewrite Forall_forall in Hall.
    assert (Hlen : ∀ q, q ∈ p :: l -> length q = length p).
    { intros q [->|Hq]%elem_of_cons; [done|].
      by apply Nat.eqb_eq, Is_true_true_1, Hall. }
    intros q1 q2 H1 H2. by rewrite (Hlen q1), (Hlen q2).
  - right. split; [|done]. intros Hev.
    apply not_true_iff_false in Hall. apply Hall, Is_true_true_1, forallb_True.
    apply Forall_forall. intros q Hq.
    apply Is_true_true_2, Nat.eqb_eq, Hev; [by right|by left].
Qed.

Lemma print_row_cases (cols : list (list string)) :
  cols ≠ [] ->
  (even cols ∧ ∃ s, ChannelGrid.print_row cols = inr s)
  ∨ (¬ even cols ∧ ChannelGrid.print_row cols = inl AssertionError).
Proof.
  intros Hne. unfold ChannelGrid.print_row.
  destruct (assert_len_eq_lists_cases cols) as [[Hev ->]|[Hev ->]];
    [left|by right].
  split; [done|]. cbn [rbind].
  destruct cols as [|first cols']; [done|]. set (cols := first :: cols') in *.
  assert (Hfirst : item cols 0 = inr first) by done.
  rewrite Hfirst. cbn [rbind].
  destruct (fold_res_inv (fun _ => True)
      (fun out i =>
         (line <- fold_res (fun out c =>
                              (col <- item cols c ;;
                               s <- item col i ;;
                               ok (out +:+ s))%res)
                    (seqZ 0 (Z.of_nat (length cols))) out ;;
          ok (line +:+ (if bool_decide (i = 0)%Z then "|" else "")
                +:+ nl))%res)
      (seqZ 0 (Z.of_nat (length first))) "") as (block & -> & _);
    [done| |cbn [rbind ok]; eauto].
  intros out i Hi%elem_of_seqZ _.
  destruct (fold_res_inv (fun _ => True)
      (fun out c =>
         (col <- item cols c ;; s <- item col i ;; ok (out +:+ s))%res)
      (seqZ 0 (Z.of_nat (length cols))) out) as (line & -> & _);
    [done| |cbn [rbind ok]; eauto].
  intros out' c Hc%elem_of_seqZ _.
  destruct (item_ok cols c) as (col & -> & Hcol); [lia|]. cbn [rbind].
  apply list_elem_of_lookup_2 in Hcol.
  destruct (item_ok col i) as (s & -> & _).
  { rewrite (Hev col first) by (done || by left). lia. }
  cbn [rbind ok]. eauto.
Qed.

Lemma print_rows_cases (rows : list (list (list string))) (out : string) :
  Forall (fun cols => cols ≠ []) rows ->
  (Forall even rows
   ∧ ∃ s, fold_res (fun out cols =>
                      (s <- ChannelGrid.print_row cols ;; ok (out +:+ s))%res)
            rows out = inr s)
  ∨ (¬ Forall even rows
     ∧ fold_res (fun out cols =>
                   (s <- ChannelGrid.print_row cols ;; ok (out +:+ s))%res)
         rows out = inl AssertionError).
Proof.
  intros Hne. revert out.
  induction Hne as [|cols rows Hcols Hne IH]; intros out; cbn [fold_res].
  { left. split; [constructor|]. by exists out. }
  destruct (print_row_cases cols Hcols) as [[Hev [s ->]]|[Hev ->]];
    cbn [rbind ok].
  - destruct (IH (out +:+ s)) as [[Hall Hs]|[Hall Hs]].
    + left. split; [by constructor|done].
    + right. split; [|done]. intros Hc. apply Hall.
      by apply Forall_cons in Hc as [_ ?].
  - right. split; [|done]. intros Hc. apply Hev.
    by apply Forall_cons in Hc as [? _].
Qed.

(** The texts of the rows are of one length in each row exactly when the
    lists of the cells are. *)
Lemma rows_even_texts sz T g rows :
  wf sz T g ->
  Forall2 (row_texts g) (seqZ 0 (ChannelGrid.y g)) rows ->
  Forall even rows <-> rows_even sz g.
Proof.
  intros Hwf HF. pose proof Hwf as (_ & Hsz & _).
  assert (Hx : ChannelGrid.x g = Size.x sz) by (by rewrite <- Hsz).
  assert (Hy : ChannelGrid.y g = Size.y sz) by (by rewrite <- Hsz).
  split.
  - intros Hall y x1 x2 [H1 Hy1] [H2 _]. simpl in *.
    assert (Hiy : seqZ 0 (ChannelGrid.y g) !! Z.to_nat y = Some y).
    { rewrite lookup_seqZ. split; lia. }
    destruct (Forall2_lookup_l _ _ _ _ _ HF Hiy) as (cols & Hcols & Hrow).
    assert (Hev : even cols).
    { rewrite Forall_forall in Hall. apply Hall.
      by apply list_elem_of_lookup_2 in Hcols. }
    assert (Hlen : ∀ x, (0 ≤ x < Size.x sz)%Z ->
              ∃ texts, texts ∈ cols
                ∧ length texts = S (length (ChannelGrid.deref g (x, y)))).
    { intros x Hx'.
      assert (Hix : seqZ 0 (ChannelGrid.x g) !! Z.to_nat x = Some x).
      { rewrite lookup_seqZ. split; lia. }
      destruct (Forall2_lookup_l _ _ _ _ _ Hrow Hix) as (texts & Ht & Hl).
      exists texts. split; [|done]. by apply list_elem_of_lookup_2 in Ht. }
    destruct (Hlen x1 H1) as (t1 & Ht1 & Hl1).
    destruct (Hlen x2 H2) as (t2 & Ht2 & Hl2).
    pose proof (Hev t1 t2 Ht1 Ht2). lia.
  - intros Hev. apply Forall_forall. intros cols Hcols.
    apply list_elem_of_lookup_1 in Hcols as [i Hi].
    destruct (Forall2_lookup_r _ _ _ _ _ HF Hi) as (y & Hy' & Hrow).
    apply lookup_seqZ in Hy' as [-> Hyr].
    intros t1 t2 Ht1 Ht2.
    apply list_elem_of_lookup_1 in Ht1 as [i1 Hi1].
    apply list_elem_of_lookup_1 in Ht2 as [i2 Hi2].
    destruct (Forall2_lookup_r _ _ _ _ _ Hrow Hi1) as (x1 & Hx1 & Hl1).
    destruct (Forall2_lookup_r _ _ _ _ _ Hrow Hi2) as (x2 & Hx2 & Hl2).
    apply lookup_seqZ in Hx1 as [-> Hx1], Hx2 as [-> Hx2].
    rewrite Hl1, Hl2. f_equal. apply Hev; unfold in_grid; simpl; lia.
Qed.

Lemma pretty_print_cases sz T hist g :
  Placed sz T hist g ->
  (0 < Size.x sz)%Z ->
  (rows_even sz g ∧ ∃ s, ChannelGrid.pretty_print g = inr s)
  ∨ (¬ rows_even sz g ∧ ChannelGrid.pretty_print g = inl AssertionError).
Proof.
  intros HP Hw. pose proof (Placed_wf _ _ _ _ HP) as Hwf.
  unfold ChannelGrid.pretty_print.
  destruct (longest_ok _ _ _ _ HP) as (m & -> & Hm). cbn [rbind].
  rewrite bool_decide_eq_true_2 by lia. cbn [rbind ok].
  destruct (rows_ok _ _ _ _ (m + 3)%Z HP) as (rows & -> & HF). cbn [rbind].
  assert (Hne : Forall (fun cols => cols ≠ []) rows).
  { apply Forall_forall. intros cols Hcols.
    apply list_elem_of_lookup_1 in Hcols as [i Hi].
    destruct (Forall2_lookup_r _ _ _ _ _ HF Hi) as (y & _ & Hrow).
    apply Forall2_length in Hrow. rewrite length_seqZ in Hrow.
    destruct Hwf as (_ & Hsz & _). unfold ChannelGrid.x in Hrow.
    rewrite Hsz in Hrow. intros ->. simpl in Hrow. lia. }
  pose proof (rows_even_texts _ _ _ _ Hwf HF) as Hiff.
  destruct (print_rows_cases rows "" Hne) as [[Hall Hs]|[Hall Hs]].
  - left. split; [by apply Hiff|done].
  - right. split; [|done]. intros Hev. by apply Hall, Hiff.
Qed.

(** X16. Rendering a reachable grid of positive width returns a text when
    the lists of the cells of each row have one length, and raises
    [AssertionError] when those of some row differ in length. *)
Theorem pretty_print_outcome sz T hist g :
  Placed sz T hist g ->
  (0 < Size.x sz)%Z ->
  (rows_even sz g -> ∃ s, ChannelGrid.pretty_print g = inr s)
  ∧ (¬ rows_even sz g -> ChannelGrid.pretty_print g = inl AssertionError).
Proof.
  intros HP Hw.
  destruct (pretty_print_cases sz T hist g HP Hw) as [[Hev Hs]|[Hev Hs]];
    split; intros H; done.
Qed.

Lemma pretty_print_outcome_witness :
  (rows_even (10, 10)%Z doc_grid_A
   -> ∃ s, ChannelGrid.pretty_print doc_grid_A = inr s)
  ∧ (¬ rows_even (10, 10)%Z doc_grid_A
     -> ChannelGrid.pretty_print doc_grid_A = inl AssertionError).
Proof.
  apply (pretty_print_outcome (10, 10)%Z Channel.Y [indexed doc_A 0]).
  - apply doc_Placed_A.
  - reflexivity.
Defined.

(** X17. Rendering a reachable Row grid of positive width never fails. *)
Theorem pretty_print_row_grid sz hist g :
  Placed sz Channel.Y hist g ->
  (0 < Size.x sz)%Z ->
  ∃ s, ChannelGrid.pretty_print g = inr s.
Proof.
  intros HP Hw.
  destruct (pretty_print_cases sz _ hist g HP Hw) as [[_ Hs]|[Hev _]];
    [done|].
  exfalso. apply Hev. intros y x1 x2 H1 H2.
  destruct (Placed_wf _ _ _ _ HP) as (_ & _ & _ & Hrect). by apply Hrect.
Qed.

Lemma pretty_print_row_grid_witness :
  ∃ s, ChannelGrid.pretty_print doc_grid_AB = inr s.
Proof.
  apply (pretty_print_row_grid (10, 10)%Z [indexed doc_B 0; indexed doc_A 0]).
  - apply doc_Placed_AB.
  - reflexivity.
Defined.

(** X18. On a Column grid of two columns or more (and of positive height)
    the first segment placed makes the rendering fail: its column has
    tracks, the others have none, and the check on the lengths raises
    [AssertionError]. *)
Theorem pretty_print_column_grid sz ch ch' g :
  (2 ≤ Size.x sz)%Z ->
  (0 < Size.y sz)%Z ->
  Channel.type_attr ch = None ->
  ChannelGrid.add_channel ch (ChannelGrid.init sz Channel.X) = (inr ch', g) ->
  ChannelGrid.pretty_print g = inl AssertionError.
Proof.
  intros Hw Hh Hfresh Hadd.
  pose proof (Placed_init sz Channel.X) as HP0.
  pose proof (Placed_step _ _ _ _ _ _ _ HP0 Hadd) as HP.
  destruct (pretty_print_cases sz _ _ g HP) as [[Hev _]|[_ Hs]];
    [lia| |done].
  exfalso.
  destruct (add_channel_inr_wf _ _ _ _ _ _ (Placed_wf _ _ _ _ HP0) Hadd)
    as (k & _ & Hs & _ & _ & Hcells).
  destruct (proj1 (add_channel_accepts sz Channel.X [] _ ch HP0 Hfresh Hs))
    as (_ & _ & Hline & _); [eauto|].
  destruct Hline as [Hline|Hline]; [simpl in Hline; lia|].
  simpl in Hline. set (c := Pos.x (Channel.start ch)) in *.
  set (c' := if decide (c = 0)%Z then 1%Z else 0%Z).
  assert (Hc' : (0 ≤ c' < Size.x sz)%Z ∧ c' ≠ c).
  { unfold c'. case_decide; lia. }
  assert (Hin : (c, 0%Z) ∈ line_refs Channel.X sz c).
  { apply elem_of_line_refs. simpl. unfold Pos.x, Pos.y. simpl. lia. }
  assert (Hout : (c', 0%Z) ∉ line_refs Channel.X sz c).
  { intros [E _]%elem_of_line_refs. simpl in E. unfold Pos.x in E.
    simpl in E. lia. }
  assert (H1 : 1 ≤ length (ChannelGrid.deref g (c, 0%Z))).
  { unfold ChannelGrid.deref. rewrite Hcells, init_lookup.
    rewrite (decide_True (P := in_grid sz (c, 0%Z)))
      by (unfold in_grid, Pos.x, Pos.y; simpl; lia).
    simpl in Hin. fold c.
    destruct (decide ((c, 0%Z) ∈ _)); simpl.
    - rewrite length_insert, pad_length. lia.
    - rewrite decide_True by done. simpl. rewrite pad_length. lia. }
  assert (H2 : length (ChannelGrid.deref g (c', 0%Z)) = 0).
  { unfold ChannelGrid.deref. rewrite Hcells, init_lookup.
    rewrite (decide_True (P := in_grid sz (c', 0%Z)))
      by (unfold in_grid, Pos.x, Pos.y; simpl; lia).
    simpl in Hout. fold c.
    rewrite decide_False
      by (intros Hps; apply Hout; revert Hps; apply slice_subseteq).
    by rewrite decide_False. }
  specialize (Hev 0%Z c c'). rewrite H2 in Hev.
  assert (length (ChannelGrid.deref g (c, 0%Z)) = 0); [|lia].
  apply Hev; unfold in_grid, Pos.x, Pos.y; simpl; lia.
Qed.

(** A segment down the first of three columns. *)
Lemma pretty_print_column_grid_witness :
  ChannelGrid.pretty_print
    (ChannelGrid.add_channel (doc_segment (0, 0)%Z (0, 1)%Z "A")
       (ChannelGrid.init (3, 2)%Z Channel.X)).2
  = inl AssertionError.
Proof.
  apply (pretty_print_column_grid (3, 2)%Z
           (doc_segment (0, 0)%Z (0, 1)%Z "A")
           (indexed (doc_segment (0, 0)%Z (0, 1)%Z "A") 0)).
  - vm_compute. discriminate.
  - reflexivity.
  - reflexivity.
  - vm_compute. reflexivity.
Defined.

(** The text the block under [__main__] prints for its grid, line by
    line. *)
Example pretty_print_main :
  ChannelGrid.pretty_print (add_channels main_segments main_grid).2
  = inr (foldr (fun line out => line +:+ nl +:+ out) ""
           ["| 0  | 1  | 2  | 3  | 4  |";
            "  AA>---------------->AA ";
            "  BB>------>BB           ";
            "  DD   CC>----------->CC ";
            "";
            "";
            "| 0  | 1  | 2  | 3  | 4  |";
            "  aa>------>aa   bb>->bb ";
            "  cc>---------------->cc ";
            "";
            ""]).
Proof. vm_compute. reflexivity. Qed.
